(** * GrpcService: lifecycle of an lnd gRPC client

    A shallow embedding of [src/services/grpc/grpcService.js]: the
    connect/disconnect state machine, the connection establisher, and the
    subscription registry with its cancellation protocol.

    The instance ([this]) and the part of the JavaScript runtime the class
    touches (listeners attached to streams, promises, timers, open client
    handles, the log) are one record, [World], threaded explicitly through
    every method. Asynchronous waits whose outcome is decided by the
    outside (file system, network) are answered by an oracle, [Env]; events
    raised by streams and the passing of time are delivered by [deliver]
    and [advance]. *)

From stdpp Require Import base option list strings gmap fin_maps.
From Stdlib Require Import ZArith Lia.

Local Open Scope Z_scope.

(** ** Values *)

(** JavaScript [Error] objects: a name and a message, and for an error that
    wraps another one, its cause. *)
Inductive jsError : Type :=
| MkError (name message : string)
| ErrorWithCause (name message : string) (cause : jsError).

(** Reading a property of [undefined]. The wording of the message is the
    runtime's; no statement below depends on it. *)
Definition TypeError_undefined (prop : string) : jsError :=
  MkError "TypeError" ("Cannot read property '" +:+ prop +:+ "' of undefined").

(** [status] of [@grpc/grpc-js]: the two codes the class distinguishes. *)
Module status.
Definition OK : Z := 0.
Definition CANCELLED : Z := 1.
End status.

(** [lndConfig]: the fields the class destructures. *)
Record LndConfig : Type := {
  host : string;
  cert : string;
  macaroon : string;
  protoPath : string;
  id : string;
  type : string
}.

(** States and transitions of the state machine built by the constructor. *)
Inductive LState : Type := ready | connected.
Inductive Transition : Type := tConnect | tDisconnect.

Global Instance LState_eq_dec : EqDecision LState.
Proof. solve_decision. Defined.

(** Identities of streaming calls, promises and client handles. *)
Abbreviation call := nat (only parsing).
Abbreviation promiseId := nat (only parsing).
Abbreviation client := nat (only parsing).

(** State of a promise. *)
Inductive Settled : Type :=
| Pending
| Resolved
| RejectedWith (e : jsError).

(** What an [async] method hands back: already settled, or following a
    promise of the store. *)
Inductive Future : Type :=
| Fulfilled
| Rejected (e : jsError)
| OnPromise (p : promiseId).

(** The two closures the class attaches to a stream with [call.on]. *)
Inductive Listener : Type :=
| onEnd (key : string)                    (* subscribe: call.on('end', ...) *)
| onStatus (key : string) (resolve : promiseId).
                                          (* _cancelSubscription: call.on('status', ...) *)

(** Events a stream emits. *)
Inductive StreamEvent : Type :=
| End
| Status (code : Z).

(** Lines written through [grpcLog]. *)
Inductive LogMsg : Type :=
| Connecting (svc : string)
| EstablishingConnection (svc filepath : string)
| UnableToConnect (svc : string) (e : jsError)
| ConnectedTo (svc : string)
| Disconnecting (svc : string)
| SubscriptionEnded (svc key : string)
| UnsubscribingAll (svc : string) (keys : list string)
| UnsubscribingFrom (svc key : string)
| UnsubscribedFrom (svc key : string).

(** Everything observable the class does, in program order. *)
Inductive Effect : Type :=
| Info (m : LogMsg)
| Warn (m : LogMsg)
| GetLatestProtoVersion (path : string)
| LoadProto (filepath : string)
| CreateSslCreds (cert : string)
| WaitForFile (path : string) (ms : Z)
| CreateMacaroonCreds (path : string)
| CombineChannelCredentials
| NewClient (svc host : string) (withMacaroon : bool) (h : client)
| WaitForReady (h : client) (deadline : Z)
| Close (h : client)
| OpenStream (key : string) (c : call)
| Cancel (c : call)
| SetTimeout (due : Z)
| InvokeSubscribe.

Global Instance jsError_eq_dec : EqDecision jsError.
Proof. solve_decision. Defined.

Global Instance LogMsg_eq_dec : EqDecision LogMsg.
Proof. solve_decision. Defined.

Global Instance Effect_eq_dec : EqDecision Effect.
Proof. solve_decision. Defined.

Global Instance StreamEvent_eq_dec : EqDecision StreamEvent.
Proof. solve_decision. Defined.

Global Instance Listener_eq_dec : EqDecision Listener.
Proof. solve_decision. Defined.

(** ** The world *)

Record World : Type := {
  (* fields of the instance, as the constructor lays them out *)
  serviceName : string;
  lndConfig : LndConfig;
  fsm_state : LState;                       (* this.fsm.state *)
  fsm_pending : bool;                       (* a transition is in flight *)
  subscriptions : gmap string call;         (* this.subscriptions *)
  useMacaroon : bool;                       (* this.useMacaroon *)
  service : option client;                  (* this.service *)
  (* the subclass: names of the streams its subscribe() opens *)
  streams : list string;
  (* runtime *)
  now : Z;                                  (* clock, milliseconds *)
  timers : list Z;                          (* due times of subscribeAfterDelay *)
  listeners : list (call * Listener);       (* call.on registrations, oldest first *)
  promises : list Settled;                  (* promise store, by identity *)
  nextCall : call;
  clients : list bool;                      (* handle -> still open *)
  trace : list Effect;
  awaiting : option (list Future)           (* onBeforeDisconnect parked on Promise.all *)
}.

Definition set_fsm_state (v : LState) (w : World) : World :=
  {| serviceName := serviceName w; lndConfig := lndConfig w; fsm_state := v;
     fsm_pending := fsm_pending w; subscriptions := subscriptions w;
     useMacaroon := useMacaroon w; service := service w; streams := streams w;
     now := now w; timers := timers w; listeners := listeners w;
     promises := promises w; nextCall := nextCall w; clients := clients w;
     trace := trace w; awaiting := awaiting w |}.

Definition set_fsm_pending (v : bool) (w : World) : World :=
  {| serviceName := serviceName w; lndConfig := lndConfig w; fsm_state := fsm_state w;
     fsm_pending := v; subscriptions := subscriptions w;
     useMacaroon := useMacaroon w; service := service w; streams := streams w;
     now := now w; timers := timers w; listeners := listeners w;
     promises := promises w; nextCall := nextCall w; clients := clients w;
     trace := trace w; awaiting := awaiting w |}.

Definition set_subscriptions (v : gmap string call) (w : World) : World :=
  {| serviceName := serviceName w; lndConfig := lndConfig w; fsm_state := fsm_state w;
     fsm_pending := fsm_pending w; subscriptions := v;
     useMacaroon := useMacaroon w; service := service w; streams := streams w;
     now := now w; timers := timers w; listeners := listeners w;
     promises := promises w; nextCall := nextCall w; clients := clients w;
     trace := trace w; awaiting := awaiting w |}.

Definition set_service (v : option client) (w : World) : World :=
  {| serviceName := serviceName w; lndConfig := lndConfig w; fsm_state := fsm_state w;
     fsm_pending := fsm_pending w; subscriptions := subscriptions w;
     useMacaroon := useMacaroon w; service := v; streams := streams w;
     now := now w; timers := timers w; listeners := listeners w;
     promises := promises w; nextCall := nextCall w; clients := clients w;
     trace := trace w; awaiting := awaiting w |}.

Definition set_now (v : Z) (w : World) : World :=
  {| serviceName := serviceName w; lndConfig := lndConfig w; fsm_state := fsm_state w;
     fsm_pending := fsm_pending w; subscriptions := subscriptions w;
     useMacaroon := useMacaroon w; service := service w; streams := streams w;
     now := v; timers := timers w; listeners := listeners w;
     promises := promises w; nextCall := nextCall w; clients := clients w;
     trace := trace w; awaiting := awaiting w |}.

Definition set_timers (v : list Z) (w : World) : World :=
  {| serviceName := serviceName w; lndConfig := lndConfig w; fsm_state := fsm_state w;
     fsm_pending := fsm_pending w; subscriptions := subscriptions w;
     useMacaroon := useMacaroon w; service := service w; streams := streams w;
     now := now w; timers := v; listeners := listeners w;
     promises := promises w; nextCall := nextCall w; clients := clients w;
     trace := trace w; awaiting := awaiting w |}.

Definition set_listeners (v : list (call * Listener)) (w : World) : World :=
  {| serviceName := serviceName w; lndConfig := lndConfig w; fsm_state := fsm_state w;
     fsm_pending := fsm_pending w; subscriptions := subscriptions w;
     useMacaroon := useMacaroon w; service := service w; streams := streams w;
     now := now w; timers := timers w; listeners := v;
     promises := promises w; nextCall := nextCall w; clients := clients w;
     trace := trace w; awaiting := awaiting w |}.

Definition set_promises (v : list Settled) (w : World) : World :=
  {| serviceName := serviceName w; lndConfig := lndConfig w; fsm_state := fsm_state w;
     fsm_pending := fsm_pending w; subscriptions := subscriptions w;
     useMacaroon := useMacaroon w; service := service w; streams := streams w;
     now := now w; timers := timers w; listeners := listeners w;
     promises := v; nextCall := nextCall w; clients := clients w;
     trace := trace w; awaiting := awaiting w |}.

Definition set_nextCall (v : call) (w : World) : World :=
  {| serviceName := serviceName w; lndConfig := lndConfig w; fsm_state := fsm_state w;
     fsm_pending := fsm_pending w; subscriptions := subscriptions w;
     useMacaroon := useMacaroon w; service := service w; streams := streams w;
     now := now w; timers := timers w; listeners := listeners w;
     promises := promises w; nextCall := v; clients := clients w;
     trace := trace w; awaiting := awaiting w |}.

Definition set_clients (v : list bool) (w : World) : World :=
  {| serviceName := serviceName w; lndConfig := lndConfig w; fsm_state := fsm_state w;
     fsm_pending := fsm_pending w; subscriptions := subscriptions w;
     useMacaroon := useMacaroon w; service := service w; streams := streams w;
     now := now w; timers := timers w; listeners := listeners w;
     promises := promises w; nextCall := nextCall w; clients := v;
     trace := trace w; awaiting := awaiting w |}.

Definition set_trace (v : list Effect) (w : World) : World :=
  {| serviceName := serviceName w; lndConfig := lndConfig w; fsm_state := fsm_state w;
     fsm_pending := fsm_pending w; subscriptions := subscriptions w;
     useMacaroon := useMacaroon w; service := service w; streams := streams w;
     now := now w; timers := timers w; listeners := listeners w;
     promises := promises w; nextCall := nextCall w; clients := clients w;
     trace := v; awaiting := awaiting w |}.

(** A subclass or a caller writing [this.useMacaroon]. *)
Definition set_useMacaroon (v : bool) (w : World) : World :=
  {| serviceName := serviceName w; lndConfig := lndConfig w; fsm_state := fsm_state w;
     fsm_pending := fsm_pending w; subscriptions := subscriptions w;
     useMacaroon := v; service := service w; streams := streams w;
     now := now w; timers := timers w; listeners := listeners w;
     promises := promises w; nextCall := nextCall w; clients := clients w;
     trace := trace w; awaiting := awaiting w |}.

Definition set_awaiting (v : option (list Future)) (w : World) : World :=
  {| serviceName := serviceName w; lndConfig := lndConfig w; fsm_state := fsm_state w;
     fsm_pending := fsm_pending w; subscriptions := subscriptions w;
     useMacaroon := useMacaroon w; service := service w; streams := streams w;
     now := now w; timers := timers w; listeners := listeners w;
     promises := promises w; nextCall := nextCall w; clients := clients w;
     trace := trace w; awaiting := v |}.

(** Append one effect to the trace. *)
Definition effect (e : Effect) (w : World) : World :=
  set_trace (trace w ++ [e]) w.

(** ** The constructor *)

(** [new GrpcService(serviceName, lndConfig)], for a subclass whose
    [subscribe] opens the streams [subclassStreams], at clock [t]. The
    base class itself is [subclassStreams = []]. *)
Definition GrpcService (name : string) (cfg : LndConfig)
    (subclassStreams : list string) (t : Z) : World :=
  {| serviceName := name; lndConfig := cfg;
     fsm_state := ready;                    (* init: 'ready' *)
     fsm_pending := false;
     subscriptions := ∅;                    (* this.subscriptions = [] *)
     useMacaroon := true;                   (* this.useMacaroon = true *)
     service := None;                       (* this.service = null *)
     streams := subclassStreams;
     now := t; timers := []; listeners := []; promises := [];
     nextCall := 0%nat; clients := []; trace := []; awaiting := None |}.

(** ** _getConnectionSettings *)

Record ConnectionSettings : Type := {
  cs_waitForMacaroon : bool;
  cs_useMacaroon : bool
}.

Definition _getConnectionSettings (w : World) : ConnectionSettings :=
  let cfg := lndConfig w in
  (* Don't use macaroons when connecting to the local tmp instance. *)
  let useMac := useMacaroon w && negb (bool_decide (id cfg = "tmp")) in
  (* If connecting to a local instance, wait for the macaroon file to exist. *)
  let waitMac := bool_decide (type cfg = "local") in
  {| cs_waitForMacaroon := waitMac; cs_useMacaroon := useMac |}.

(** ** A state-and-error monad for the methods *)

Inductive Result (A : Type) : Type :=
| Ok (a : A)
| Err (e : jsError).
Arguments Ok {A} a.
Arguments Err {A} e.

Definition M (A : Type) : Type := World -> Result A * World.

Definition ret {A} (a : A) : M A := fun w => (Ok a, w).
Definition throw {A} (e : jsError) : M A := fun w => (Err e, w).
Definition bind {A B} (m : M A) (k : A -> M B) : M B :=
  fun w => match m w with
           | (Ok a, w') => k a w'
           | (Err e, w') => (Err e, w')
           end.
Definition try_catch {A} (m : M A) (handler : jsError -> M A) : M A :=
  fun w => match m w with
           | (Ok a, w') => (Ok a, w')
           | (Err e, w') => handler e w'
           end.
Definition get : M World := fun w => (Ok w, w).
Definition modify (f : World -> World) : M unit := fun w => (Ok tt, f w).
Definition emit_effect (e : Effect) : M unit := modify (effect e).
(** An awaited outside operation: [None] is success, [Some e] a rejection. *)
Definition await (outcome : option jsError) : M unit :=
  match outcome with None => ret tt | Some e => throw e end.

Global Instance M_ret : MRet M := @ret.
Global Instance M_bind : MBind M := fun A B k m => bind m k.

(** ** The outside of one connection attempt *)

(** What the awaited operations of [establishConnection] answer. The
    readiness probe is asked with its deadline. *)
Record Env : Type := {
  latestProtoVersion : Result string;       (* lndgrpc.getLatestProtoVersion *)
  loadResult : option jsError;              (* load(filepath, grpcOptions) *)
  sslCredsResult : option jsError;          (* createSslCreds(cert) *)
  waitForFileResult : option jsError;       (* waitForFile(macaroon, 20000) *)
  macaroonCredsResult : option jsError;     (* createMacaroonCreds(macaroon) *)
  waitForReadyResult : Z -> option jsError  (* service.waitForReady(deadline) *)
}.

(** Modelled from the spec: [getDeadline] of [@zap/utils/getDeadline] is not
    in src/; the readiness probe has a fixed deadline of that many time
    units (seconds) from the current time. The clock counts milliseconds. *)
Definition getDeadline (secs : Z) (t : Z) : Z := t + 1000 * secs.

(** [path.join(protoPath, `${versionToUse}.proto`)], without the
    normalisation [path.join] applies to its result; the path only appears
    in log lines and in the request to load it. *)
Definition join (dir file : string) : string := dir +:+ "/" +:+ file.

(** [new rpc.lnrpc[serviceName](host, creds)]: a fresh, open handle. *)
Definition newClient (withMacaroon : bool) : M client :=
  fun w =>
    let h := length (clients w) in
    (Ok h, effect (NewClient (serviceName w) (host (lndConfig w)) withMacaroon h)
             (set_clients (clients w ++ [true]) w)).

(** [handle.close()]. *)
Definition close (h : client) (w : World) : World :=
  effect (Close h) (set_clients (<[h := false]> (clients w)) w).

(** A handle that is still open. *)
Definition isOpen (w : World) (h : client) : Prop := clients w !! h = Some true.

(** [lndgrpc.getLatestProtoVersion({ path })]. *)
Definition getLatestProtoVersion (env : Env) (path : string) : M string :=
  bind (emit_effect (GetLatestProtoVersion path))
       (fun _ w => (latestProtoVersion env, w)).

(** ** establishConnection *)

Definition establishConnection (env : Env) (version : option string)
    (useMac waitMac : bool) : M unit :=
  w ← get;
  let cfg := lndConfig w in
  (* Find the most recent rpc.proto file *)
  versionToUse ←
    match version with
    | Some v =>
      (* version || ...: the empty string is falsy *)
      if bool_decide (v = "") then getLatestProtoVersion env (protoPath cfg)
      else ret v
    | None => getLatestProtoVersion env (protoPath cfg)
    end;
  let filepath := join (protoPath cfg) (versionToUse +:+ ".proto") in
  emit_effect (Info (EstablishingConnection (serviceName w) filepath));;
  (* Load gRPC package definition as a gRPC object hierarchy. *)
  emit_effect (LoadProto filepath);;
  await (loadResult env);;
  (* Create ssl credentials to use with the gRPC client. *)
  emit_effect (CreateSslCreds (cert cfg));;
  await (sslCredsResult env);;
  (* Add macaroon to credentials if service requires macaroons. *)
  (if useMac then
     (if waitMac then
        emit_effect (WaitForFile (macaroon cfg) 20000);;
        await (waitForFileResult env)
      else ret tt);;
     emit_effect (CreateMacaroonCreds (macaroon cfg));;
     await (macaroonCredsResult env);;
     emit_effect CombineChannelCredentials
   else ret tt);;
  (* Create a new gRPC client instance. *)
  h ← newClient useMac;
  modify (set_service (Some h));;
  try_catch
    ((* Wait up to 10 seconds for the gRPC connection to be established. *)
     w' ← get;
     let deadline := getDeadline 10 (now w') in
     emit_effect (WaitForReady h deadline);;
     await (waitForReadyResult env deadline))
    (fun e =>
       emit_effect (Warn (UnableToConnect (serviceName w) e));;
       modify (close h);;
       throw e).

(** ** The subscription registry *)

(** [Object.keys(this.subscriptions)]. The order of the keys is that of
    the map, not the order of insertion; it only fixes the order in which
    the same per-key actions are carried out. *)
Definition keys (w : World) : list string := (map_to_list (subscriptions w)).*1.

(** [call.on(event, listener)]. *)
Definition call_on (c : call) (l : Listener) (w : World) : World :=
  set_listeners (listeners w ++ [(c, l)]) w.

(** What a subclass does in its [subscribe] before calling [super.subscribe()]:
    [this.subscriptions[key] = this.service.subscribeToSomething()], a fresh
    stream under [key]. *)
Definition openStream (w : World) (key : string) : World :=
  let c := nextCall w in
  effect (OpenStream key c)
    (set_subscriptions (<[key := c]> (subscriptions w)) (set_nextCall (S c) w)).

(** [subscribe()]: the subclass opens its streams, then the base method
    attaches an 'end' listener to every stream of the registry. The
    [forEach] body reads [this.subscriptions[key]] for keys it has just
    listed, so it runs over the entries. *)
Definition subscribe (w : World) : World :=
  let w1 := effect InvokeSubscribe w in
  let w2 := foldl openStream w1 (streams w1) in
  foldl (fun w kc => call_on kc.2 (onEnd kc.1) w) w2 (map_to_list (subscriptions w2)).

(** [new Promise(...)]: a new entry of the store. *)
Definition newPromise (s : Settled) (w : World) : promiseId * World :=
  (length (promises w), set_promises (promises w ++ [s]) w).

(** Calling a method of something that has none of that name. *)
Definition TypeError_notAFunction (prop : string) : jsError :=
  MkError "TypeError" ("call." +:+ prop +:+ " is not a function").

(** [this.subscriptions] is an Array used as a map. The names below are the
    ones every Array answers to without holding an entry of that name: its
    own [length], and what [Array.prototype] and [Object.prototype] define
    (ECMAScript 2019). Under any other name a missing entry reads as
    [undefined]. The names a subclass registers are taken not to be among
    them. *)
Definition arrayNames : list string :=
  [ "length"; "constructor"; "concat"; "copyWithin"; "entries"; "every"; "fill";
    "filter"; "find"; "findIndex"; "flat"; "flatMap"; "forEach"; "includes";
    "indexOf"; "join"; "keys"; "lastIndexOf"; "map"; "pop"; "push"; "reduce";
    "reduceRight"; "reverse"; "shift"; "slice"; "some"; "sort"; "splice";
    "toLocaleString"; "toString"; "unshift"; "values"; "hasOwnProperty";
    "isPrototypeOf"; "propertyIsEnumerable"; "valueOf"; "__proto__";
    "__defineGetter__"; "__defineSetter__"; "__lookupGetter__";
    "__lookupSetter__" ].

(** The error of [call.prop(...)] when the registry has no entry [key]:
    [call] is [undefined], or one of the values above, which has no such
    method. *)
Definition notAStream (key prop : string) : jsError :=
  if bool_decide (key ∈ arrayNames) then TypeError_notAFunction prop
  else TypeError_undefined prop.

(** [_cancelSubscription(key)]. With no entry under [key], [call] is not a
    stream: the executor of [result] throws on [call.on], so [result] is
    born rejected, and [call.cancel()] throws out of the async body. *)
Definition _cancelSubscription (key : string) (w : World) : Future * World :=
  let w1 := effect (Info (UnsubscribingFrom (serviceName w) key)) w in
  match subscriptions w1 !! key with
  | Some c =>
    (* Cancellation status callback handler. *)
    let (p, w2) := newPromise Pending w1 in
    let w3 := call_on c (onStatus key p) w2 in
    (* Initiate cancellation request. *)
    let w4 := effect (Cancel c) w3 in
    (* Resolve once we receive confirmation of the call's cancellation. *)
    (OnPromise p, w4)
  | None =>
    let (_, w2) := newPromise (RejectedWith (notAStream key "on")) w1 in
    (Rejected (notAStream key "cancel"), w2)
  end.

(** [activeSubKeys.map(key => this._cancelSubscription(key))]. *)
Fixpoint cancelEach (ks : list string) (w : World) : list Future * World :=
  match ks with
  | [] => ([], w)
  | k :: ks' =>
    let (f, w1) := _cancelSubscription k w in
    let (fs, w2) := cancelEach ks' w1 in
    (f :: fs, w2)
  end.

(** [unsubscribe()], up to its [await]: the futures handed to
    [Promise.all]. *)
Definition unsubscribe (w : World) : list Future * World :=
  let activeSubKeys := keys w in
  let w1 := effect (Info (UnsubscribingAll (serviceName w) activeSubKeys)) w in
  cancelEach activeSubKeys w1.

(** State of a future in a world. *)
Definition future_state (w : World) (f : Future) : Settled :=
  match f with
  | Fulfilled => Resolved
  | Rejected e => RejectedWith e
  | OnPromise p => default Pending (promises w !! p)
  end.

(** State of [Promise.all(fs)], hence of the future of [unsubscribe]. *)
Fixpoint all_state (w : World) (fs : list Future) : Settled :=
  match fs with
  | [] => Resolved
  | f :: fs' =>
    match future_state w f, all_state w fs' with
    | RejectedWith e, _ => RejectedWith e
    | _, RejectedWith e => RejectedWith e
    | Resolved, Resolved => Resolved
    | _, _ => Pending
    end
  end.

(** ** Stream events *)

(** [resolve()] of a promise: only a pending promise changes. *)
Definition resolve (p : promiseId) (w : World) : World :=
  match promises w !! p with
  | Some Pending => set_promises (<[p := Resolved]> (promises w)) w
  | _ => w
  end.

(** The bodies of the two listeners. *)
Definition run_listener (ev : StreamEvent) (w : World) (l : Listener) : World :=
  match l, ev with
  | onEnd key, End =>
    let w1 := effect (Info (SubscriptionEnded (serviceName w) key)) w in
    set_subscriptions (delete key (subscriptions w1)) w1
  | onStatus key p, Status code =>
    if bool_decide (code = status.CANCELLED) then
      let w1 := set_subscriptions (delete key (subscriptions w)) w in
      let w2 := effect (Info (UnsubscribedFrom (serviceName w) key)) w1 in
      resolve p w2
    else w
  | _, _ => w
  end.

(** Listeners attached to a stream, oldest first. *)
Definition listenersOf (c : call) (w : World) : list Listener :=
  (filter (fun cl => cl.1 = c) (listeners w)).*2.

(** The stream [c] emits [ev]: its listeners run in turn. *)
Definition emit (c : call) (ev : StreamEvent) (w : World) : World :=
  foldl (run_listener ev) w (listenersOf c w).

(** ** The state machine *)

(** Modelled from the spec: the transition engine is the
    [javascript-state-machine] package, which is not in src/. The table is
    the constructor's; a transition that the table does not allow from the
    current state, or that is requested while another is in flight, fails
    with [InvalidTransitionError] and changes nothing. A rejected before-hook
    aborts the transition in the state it started from. *)
Definition InvalidTransitionError (message : string) : jsError :=
  MkError "InvalidTransitionError" message.

Definition invalid_in_state : string := "transition is invalid in current state".
Definition invalid_while_pending : string :=
  "transition is invalid while previous transition is still in progress".

(** [transitions] of the constructor: name, from, to. *)
Definition transitions : list (Transition * LState * LState) :=
  [ (tConnect, ready, connected);
    (tDisconnect, connected, ready) ].

Global Instance Transition_eq_dec : EqDecision Transition.
Proof. solve_decision. Defined.

Definition seek (t : Transition) (from : LState) : option LState :=
  match filter (fun r => r.1.1 = t ∧ r.1.2 = from) transitions with
  | r :: _ => Some r.2
  | [] => None
  end.

(** [is(...args)] forwards the argument array: the state is one of them. *)
Definition is_ (states : list LState) (w : World) : bool :=
  bool_decide (fsm_state w ∈ states).

(** [can(...args)]. *)
Definition can (t : Transition) (w : World) : bool :=
  negb (fsm_pending w) && bool_decide (is_Some (seek t (fsm_state w))).

(** How a transition request comes back. *)
Inductive Outcome : Type :=
| Done (w : World)                  (* the transition completed *)
| Failed (e : jsError) (w : World)  (* it threw or rejected *)
| Suspended (w : World).            (* parked on an await, still in flight *)

(** [onBeforeConnect]. *)
Definition onBeforeConnect (env : Env) : M unit :=
  w ← get;
  emit_effect (Info (Connecting (serviceName w)));;
  (* Establish a connection. *)
  let s := _getConnectionSettings w in
  establishConnection env None (cs_useMacaroon s) (cs_waitForMacaroon s).

(** Modelled from the spec: [delay] of [@zap/utils/delay] is not in src/;
    [delay(ms)] resolves once [ms] time units have passed. *)
Definition delay (ms : Z) (w : World) : World :=
  let due := now w + ms in
  effect (SetTimeout due) (set_timers (timers w ++ [due]) w).

(** [onAfterConnect]: [subscribeAfterDelay()] runs up to its [await], then
    the log line. *)
Definition onAfterConnect (w : World) : World :=
  let w1 := delay 2000 w in
  effect (Info (ConnectedTo (serviceName w))) w1.

(** [subscribeAfterDelay] after its [await delay(2000)]. *)
Definition subscribeAfterDelay (w : World) : World :=
  if is_ [connected] w then subscribe w else w.

(** [connect()]. The awaits of the before-hook are answered by [env]; what
    else may happen while they are pending is not interleaved. *)
Definition connect (env : Env) (w : World) : Outcome :=
  match seek tConnect (fsm_state w) with
  | None => Failed (InvalidTransitionError invalid_in_state) w
  | Some to =>
    if fsm_pending w then Failed (InvalidTransitionError invalid_while_pending) w
    else
      match onBeforeConnect env (set_fsm_pending true w) with
      | (Err e, w1) => Failed e (set_fsm_pending false w1)
      | (Ok _, w1) =>
        Done (set_fsm_pending false (onAfterConnect (set_fsm_state to w1)))
      end
  end.

(** [onBeforeDisconnect] after [await this.unsubscribe()], and the end of
    the transition: the only transition that parks is [disconnect], to
    [ready]. *)
Definition finishDisconnect (w : World) : World :=
  let w1 := match service w with
            | Some h => close h w
            | None => w
            end in
  set_awaiting None (set_fsm_pending false (set_fsm_state ready w1)).

(** [disconnect()]. *)
Definition disconnect (w : World) : Outcome :=
  match seek tDisconnect (fsm_state w) with
  | None => Failed (InvalidTransitionError invalid_in_state) w
  | Some _ =>
    if fsm_pending w then Failed (InvalidTransitionError invalid_while_pending) w
    else
      let w1 := set_fsm_pending true w in
      let w2 := effect (Info (Disconnecting (serviceName w))) w1 in
      let (futs, w3) := unsubscribe w2 in
      match all_state w3 futs with
      | Resolved => Done (finishDisconnect w3)
      | RejectedWith e => Failed e (set_fsm_pending false w3)
      | Pending => Suspended (set_awaiting (Some futs) w3)
      end
  end.

(** Continuations parked on promises run once these settle. *)
Definition settle (w : World) : World :=
  match awaiting w with
  | None => w
  | Some futs =>
    match all_state w futs with
    | Pending => w
    | Resolved => finishDisconnect w
    | RejectedWith _ => set_awaiting None (set_fsm_pending false w)
    end
  end.

(** ** The event loop *)

(** One stream event, then the continuations it unblocked. *)
Definition deliver (w : World) (cev : call * StreamEvent) : World :=
  settle (emit cev.1 cev.2 w).

Definition run_events (evs : list (call * StreamEvent)) (w : World) : World :=
  foldl deliver w evs.

(** The clock reaches [t]: every timer due by then fires. *)
Definition advance (t : Z) (w : World) : World :=
  let due := filter (fun d => d ≤ t) (timers w) in
  let w1 := set_timers (filter (fun d => ¬ d ≤ t) (timers w))
              (set_now (Z.max (now w) t) w) in
  foldl (fun w _ => subscribeAfterDelay w) w1 due.

(** ** Observations used in the statements *)

(** Effects that build, wait for or attach macaroon credentials. *)
Definition usesMacaroon (e : Effect) : bool :=
  match e with
  | WaitForFile _ _ | CreateMacaroonCreds _ | CombineChannelCredentials => true
  | NewClient _ _ withMacaroon _ => withMacaroon
  | _ => false
  end.

(** How often [subscribe] has been invoked. *)
Definition subscribeCalls (w : World) : nat :=
  count_occ Effect_eq_dec (trace w) InvokeSubscribe.

(** How many "ended" lines the log holds for a subscription. *)
Definition endedEvents (key : string) (w : World) : nat :=
  count_occ Effect_eq_dec (trace w) (Info (SubscriptionEnded (serviceName w) key)).

(** The world a transition request leaves behind. *)
Definition world_of (o : Outcome) : World :=
  match o with
  | Done w | Failed _ w | Suspended w => w
  end.

(** An error that is a [ConnectionError] wrapping [cause]. *)
Definition wrapsCause (err cause : jsError) : Prop :=
  exists message, err = ErrorWithCause "ConnectionError" message cause.

(** Every listener sits on a stream that has been opened and, if it holds
    the [resolve] of a promise, on a promise that has been created; every
    registered stream has been opened. All reachable worlds are of this kind
    ([reachable_wf]). *)
Definition listener_ok (w : World) (cl : call * Listener) : Prop :=
  (cl.1 < nextCall w)%nat ∧
  match cl.2 with
  | onStatus _ p => (p < length (promises w))%nat
  | onEnd _ => True
  end.

Definition wf (w : World) : Prop :=
  Forall (listener_ok w) (listeners w) /\
  map_Forall (fun _ c => (c < nextCall w)%nat) (subscriptions w).

Global Instance listener_ok_dec w cl : Decision (listener_ok w cl).
Proof. unfold listener_ok. destruct cl.2; apply _. Defined.

Global Instance wf_dec w : Decision (wf w).
Proof. unfold wf. apply _. Defined.

(** [w'] comes from [w] by cancellation requests: promises and listeners are
    only added, and an added cancellation listener holds an added promise. *)
Definition grows (w w' : World) : Prop :=
  (exists ps, promises w' = promises w ++ ps) /\
  (forall cl, cl ∈ listeners w -> cl ∈ listeners w') /\
  (forall c key p, (c, onStatus key p) ∈ listeners w' ->
     (c, onStatus key p) ∈ listeners w \/ (length (promises w) <= p)%nat).

(** The future [fut] of a cancellation of [key], registered as stream [c]:
    it follows a pending promise whose [resolve] is held by a listener on
    [c], and by listeners on no other stream. *)
Definition awaitsConfirmation (w : World) (key : string) (c : call) (fut : Future)
    : Prop :=
  exists p, fut = OnPromise p /\ promises w !! p = Some Pending /\
            (c, onStatus key p) ∈ listeners w /\
            forall c' key', (c', onStatus key' p) ∈ listeners w -> c' = c.

(** What can happen to an instance after its construction. *)
Inductive step : World -> World -> Prop :=
| step_connect env w : step w (world_of (connect env w))
| step_disconnect w : step w (world_of (disconnect w))
| step_subscribe w : step w (subscribe w)
| step_unsubscribe w : step w (unsubscribe w).2
| step_cancel key w : step w (_cancelSubscription key w).2
| step_event cev w : step w (deliver w cev)
| step_advance t w : step w (advance t w).

Inductive reachable : World -> Prop :=
| reachable_new name cfg ss t : reachable (GrpcService name cfg ss t)
| reachable_step w w' : reachable w -> step w w' -> reachable w'.

(** Fields no connection attempt writes. *)
Definition untouched (w w' : World) : Prop :=
  serviceName w' = serviceName w /\ lndConfig w' = lndConfig w /\
  fsm_state w' = fsm_state w /\ fsm_pending w' = fsm_pending w /\
  subscriptions w' = subscriptions w /\ useMacaroon w' = useMacaroon w /\
  streams w' = streams w /\ now w' = now w /\ timers w' = timers w /\
  listeners w' = listeners w /\ promises w' = promises w /\
  nextCall w' = nextCall w /\ awaiting w' = awaiting w.

(** A method keeps a relation between the world it starts in and the
    world it leaves, however it ends. *)
Definition preserves {A} (R : World -> World -> Prop) (m : M A) : Prop :=
  forall w, R w (m w).2.

(** The macaroon-related effects of a trace. *)
Definition macaroonEffects (w : World) : list Effect :=
  List.filter usesMacaroon (trace w).

Definition sameMacaroonEffects (w w' : World) : Prop :=
  macaroonEffects w' = macaroonEffects w.

(** Fields a cancellation request does not write. *)
Definition sameInstance (w w' : World) : Prop :=
  serviceName w' = serviceName w /\ lndConfig w' = lndConfig w /\
  fsm_state w' = fsm_state w /\ fsm_pending w' = fsm_pending w /\
  subscriptions w' = subscriptions w /\ useMacaroon w' = useMacaroon w /\
  service w' = service w /\ streams w' = streams w /\ now w' = now w /\
  timers w' = timers w /\ nextCall w' = nextCall w /\ clients w' = clients w /\
  awaiting w' = awaiting w.

(** Effects a connection attempt can have. *)
Definition connectionEffect (e : Effect) : bool :=
  match e with
  | InvokeSubscribe | OpenStream _ _ | Cancel _ | SetTimeout _ => false
  | _ => true
  end.

(** The effects of a connection attempt up to the creation of the client,
    when every step before the probe succeeds and the proto version is
    looked up. *)
Definition effectsBeforeProbe (w : World) (v : string) (useMac waitMac : bool)
    : list Effect :=
  let cfg := lndConfig w in
  let filepath := join (protoPath cfg) (v +:+ ".proto") in
  [ GetLatestProtoVersion (protoPath cfg);
    Info (EstablishingConnection (serviceName w) filepath);
    LoadProto filepath;
    CreateSslCreds (cert cfg) ]
  ++ (if useMac then
        (if waitMac then [WaitForFile (macaroon cfg) 20000] else [])
        ++ [CreateMacaroonCreds (macaroon cfg); CombineChannelCredentials]
      else []).

(** The effects of a readiness probe that fails with [e] on the handle [h]:
    the warning, then the release of the handle. *)
Definition effectsOfFailedProbe (w : World) (useMac : bool) (h : client)
    (e : jsError) : list Effect :=
  [ NewClient (serviceName w) (host (lndConfig w)) useMac h;
    WaitForReady h (getDeadline 10 (now w));
    Warn (UnableToConnect (serviceName w) e);
    Close h ].

(** Every step of a connection attempt before the probe succeeds. *)
Definition reachesProbe (env : Env) (useMac waitMac : bool) : Prop :=
  (exists v, latestProtoVersion env = Ok v) /\
  loadResult env = None /\ sslCredsResult env = None /\
  (useMac = true ->
   (waitMac = true -> waitForFileResult env = None) /\
   macaroonCredsResult env = None).

(** The effects of creating the client and of a readiness probe that
    succeeds on the handle [h]. *)
Definition effectsOfReadyProbe (w : World) (useMac : bool) (h : client)
    : list Effect :=
  [ NewClient (serviceName w) (host (lndConfig w)) useMac h;
    WaitForReady h (getDeadline 10 (now w)) ].

(** The handle table and [this.service] are as they were. *)
Definition sameClients (w w' : World) : Prop :=
  clients w' = clients w /\ service w' = service w.

(** What a connection attempt started in [w] and ended with [r] in [w'] has
    done to the handles: on success one new open handle, held by
    [this.service]; on failure either nothing, or one new handle, held by
    [this.service] and closed. *)
Definition clientsAfterAttempt (w : World) (r : Result unit) (w' : World) : Prop :=
  match r with
  | Ok _ =>
    clients w' = clients w ++ [true] /\ service w' = Some (length (clients w))
  | Err _ =>
    sameClients w w' \/
    (clients w' = clients w ++ [false] /\ service w' = Some (length (clients w)))
  end.

(** Waits for the macaroon file, and lookups of the latest proto version. *)
Definition isWaitForFile (e : Effect) : bool :=
  match e with WaitForFile _ _ => true | _ => false end.

Definition isVersionLookup (e : Effect) : bool :=
  match e with GetLatestProtoVersion _ => true | _ => false end.

(** [options.version] is truthy. *)
Definition hasVersion (version : option string) : bool :=
  match version with
  | Some v => negb (bool_decide (v = ""))
  | None => false
  end.

(** Fields that neither a listener nor [subscribe] nor a cancellation
    request writes: the state machine, the client and its handles, the
    parked continuation, the clock and the timers. *)
Definition sameConnection (w w' : World) : Prop :=
  fsm_state w' = fsm_state w /\ fsm_pending w' = fsm_pending w /\
  service w' = service w /\ clients w' = clients w /\
  awaiting w' = awaiting w /\ timers w' = timers w /\ now w' = now w.



(** The handles after [finishDisconnect]. *)
Definition closedService (w : World) : list bool :=
  match service w with
  | Some h => <[h := false]> (clients w)
  | None => clients w
  end.

(** ** Runs *)

(** What can be done to an instance or happen to it after its construction:
    a call of one of its methods, an event of a stream, the clock reaching
    a time. *)
Inductive Op : Type :=
| OpConnect (env : Env)
| OpDisconnect
| OpSubscribe
| OpUnsubscribe
| OpCancel (key : string)
| OpEvent (cev : nat * StreamEvent)
| OpAdvance (t : Z).

Definition apply_op (w : World) (op : Op) : World :=
  match op with
  | OpConnect env => world_of (connect env w)
  | OpDisconnect => world_of (disconnect w)
  | OpSubscribe => subscribe w
  | OpUnsubscribe => (unsubscribe w).2
  | OpCancel key => (_cancelSubscription key w).2
  | OpEvent cev => deliver w cev
  | OpAdvance t => advance t w
  end.

Definition run_ops (ops : list Op) (w : World) : World := foldl apply_op w ops.

(** The stream events of a run. *)
Definition events (ops : list Op) : list (nat * StreamEvent) :=
  omap (fun op => match op with OpEvent cev => Some cev | _ => None end) ops.

Definition isConnect (op : Op) : bool :=
  match op with OpConnect _ => true | _ => false end.

(** [op] is a call of [connect], or a call of [subscribe] made from outside
    the class. *)
Definition connectsOrSubscribes (op : Op) : bool :=
  match op with OpConnect _ | OpSubscribe => true | _ => false end.

(** [op] takes the clock to [due] or beyond. *)
Definition reachesTime (due : Z) (op : Op) : bool :=
  match op with OpAdvance t => bool_decide (due ≤ t) | _ => false end.

(** [op] fires no timer of [w]. *)
Definition firesNoTimer (w : World) (op : Op) : Prop :=
  match op with
  | OpAdvance t => Forall (fun d => t < d) (timers w)
  | _ => True
  end.

(** From [w] to [w'] [subscribe] may have been invoked; if it has not, the
    registry has gained no entry. *)
Definition quiet (w w' : World) : Prop :=
  (subscribeCalls w <= subscribeCalls w')%nat /\
  (subscribeCalls w' = subscribeCalls w -> subscriptions w' ⊆ subscriptions w).

(** The state machine, the client and the parked continuation are as they
    were. *)
Definition sameTransition (w w' : World) : Prop :=
  fsm_state w' = fsm_state w /\ fsm_pending w' = fsm_pending w /\
  service w' = service w /\ clients w' = clients w /\
  awaiting w' = awaiting w.

(** An open handle is the one [this.service] holds, and it is open in state
    [connected] or while a transition is in flight. *)
Definition handlesAccounted (w : World) : Prop :=
  forall h, isOpen w h ->
    service w = Some h /\ (fsm_state w = connected \/ fsm_pending w = true).

(** ** Sample inputs *)

Definition sampleConfig : LndConfig :=
  {| host := "localhost:10009"; cert := "tls.cert"; macaroon := "admin.macaroon";
     protoPath := "proto"; id := "wallet-1"; type := "local" |}.

Definition tmpConfig : LndConfig :=
  {| host := "localhost:10009"; cert := "tls.cert"; macaroon := "admin.macaroon";
     protoPath := "proto"; id := "tmp"; type := "local" |}.

(** The error of a readiness probe that ran into its deadline. *)
Definition deadlineExceeded : jsError :=
  MkError "Error" "Failed to connect before the deadline".

(** Everything succeeds. *)
Definition envReady : Env :=
  {| latestProtoVersion := Ok "0.9.0"; loadResult := None; sslCredsResult := None;
     waitForFileResult := None; macaroonCredsResult := None;
     waitForReadyResult := fun _ => None |}.

(** The channel never becomes ready. *)
Definition envUnreachable : Env :=
  {| latestProtoVersion := Ok "0.9.0"; loadResult := None; sslCredsResult := None;
     waitForFileResult := None; macaroonCredsResult := None;
     waitForReadyResult := fun _ => Some deadlineExceeded |}.

(** A service whose subclass opens two streams, just constructed. *)
Definition sampleService : World :=
  GrpcService "Lightning" sampleConfig ["invoices"; "transactions"] 0.

(** The same service connected, after the settling delay: both streams are
    registered, "invoices" as stream 0 and "transactions" as stream 1. *)
Definition sampleSubscribed : World :=
  advance 2000 (world_of (connect envReady sampleService)).

(** Unfolding of the monad. *)
Ltac unfold_M :=
  unfold mbind, M_bind, mret, M_ret, bind, ret, throw, try_catch, get, modify,
    emit_effect, await in *.

(** ** Connection settings (C5, C10) *)

Lemma settings_useMacaroon (w : World) :
  cs_useMacaroon (_getConnectionSettings w)
  = useMacaroon w && negb (bool_decide (id (lndConfig w) = "tmp")).
Proof. reflexivity. Qed.

Lemma settings_waitForMacaroon (w : World) :
  cs_waitForMacaroon (_getConnectionSettings w)
  = bool_decide (type (lndConfig w) = "local").
Proof. reflexivity. Qed.

(** C5. For every configuration and every instance holding it: with the
    identifier "tmp" the derived useMacaroon is false whatever the type is,
    and waitForMacaroon is true exactly when the type is "local". *)
Theorem connection_settings_from_config (w : World) :
  (id (lndConfig w) = "tmp" -> cs_useMacaroon (_getConnectionSettings w) = false) /\
  (cs_waitForMacaroon (_getConnectionSettings w) = true <-> type (lndConfig w) = "local").
Proof.
  split.
  - intros Hid. rewrite settings_useMacaroon, Hid.
    rewrite bool_decide_eq_true_2 by reflexivity. apply andb_false_r.
  - rewrite settings_waitForMacaroon. apply bool_decide_eq_true.
Qed.

Lemma connection_settings_from_config_witness :
  let w := GrpcService "WalletUnlocker" tmpConfig [] 0 in
  id (lndConfig w) = "tmp" /\
  cs_useMacaroon (_getConnectionSettings w) = false /\
  cs_waitForMacaroon (_getConnectionSettings w) = true.
Proof.
  intros w.
  destruct (connection_settings_from_config w) as [Huse Hwait].
  split; [reflexivity|]. split.
  - apply Huse. reflexivity.
  - apply Hwait. reflexivity.
Defined.

(** ** Rules for [preserves] *)

Section Preserves.
Variable R : World -> World -> Prop.
Hypothesis R_refl : forall w, R w w.
Hypothesis R_trans : forall w1 w2 w3, R w1 w2 -> R w2 w3 -> R w1 w3.

Lemma preserves_ret {A} (a : A) : preserves R (ret a).
Proof. intros w. apply R_refl. Qed.

Lemma preserves_throw {A} e : preserves R (@throw A e).
Proof. intros w. apply R_refl. Qed.

Lemma preserves_get : preserves R get.
Proof. intros w. apply R_refl. Qed.

Lemma preserves_await o : preserves R (await o).
Proof. destruct o; [apply preserves_throw | apply preserves_ret]. Qed.

Lemma preserves_modify f : (forall w, R w (f w)) -> preserves R (modify f).
Proof. intros Hf w. apply Hf. Qed.

Lemma preserves_bind {A B} (m : M A) (k : A -> M B) :
  preserves R m -> (forall a, preserves R (k a)) -> preserves R (bind m k).
Proof.
  intros Hm Hk w. unfold bind. specialize (Hm w).
  destruct (m w) as [[a|e] w1]; simpl in *; [|assumption].
  eapply R_trans; [eassumption | apply Hk].
Qed.

Lemma preserves_try_catch {A} (m : M A) (h : jsError -> M A) :
  preserves R m -> (forall e, preserves R (h e)) -> preserves R (try_catch m h).
Proof.
  intros Hm Hh w. unfold try_catch. specialize (Hm w).
  destruct (m w) as [[a|e] w1]; simpl in *; [assumption|].
  eapply R_trans; [eassumption | apply Hh].
Qed.

(** Effects that keep [R] when logged, and the two fields a connection
    attempt writes. *)
Variable P : Effect -> Prop.
Hypothesis R_effect : forall e w, P e -> R w (effect e w).
Hypothesis R_set_clients : forall v w, R w (set_clients v w).
Hypothesis R_set_service : forall v w, R w (set_service v w).

Lemma preserves_emit_effect e : P e -> preserves R (emit_effect e).
Proof. intros He w. apply R_effect, He. Qed.

Lemma preserves_getLatestProtoVersion env path :
  P (GetLatestProtoVersion path) -> preserves R (getLatestProtoVersion env path).
Proof. intros HP w. apply R_effect, HP. Qed.

Lemma preserves_newClient b :
  (forall svc h c, P (NewClient svc h b c)) -> preserves R (newClient b).
Proof.
  intros HP w. simpl. eapply R_trans; [apply R_set_clients|].
  apply R_effect, HP.
Qed.

Lemma preserves_close h : P (Close h) -> preserves R (modify (close h)).
Proof.
  intros HP w. simpl. eapply R_trans; [apply R_set_clients|].
  apply R_effect, HP.
Qed.

Ltac preserves_step HP :=
  first [ apply preserves_ret | apply preserves_throw | apply preserves_get
        | apply preserves_await
        | apply preserves_getLatestProtoVersion; apply HP; reflexivity
        | apply preserves_newClient; intros; apply HP; reflexivity
        | apply preserves_close; apply HP; reflexivity
        | apply preserves_emit_effect; apply HP; reflexivity
        | apply preserves_modify; intros; apply R_set_service
        | apply preserves_bind; [|intros ?]
        | apply preserves_try_catch; [|intros ?] ].

(** A connection attempt made without macaroons keeps [R] as soon as the
    effects that do not involve macaroons do. *)
Lemma preserves_establishConnection_plain env version waitMac :
  (forall e, connectionEffect e = true -> usesMacaroon e = false -> P e) ->
  preserves R (establishConnection env version false waitMac).
Proof.
  intros HP. unfold establishConnection, mbind, M_bind.
  repeat preserves_step HP.
  destruct version as [v|]; [case_bool_decide|]; preserves_step HP.
Qed.

(** Any connection attempt keeps [R] if its effects do. *)
Lemma preserves_establishConnection env version useMac waitMac :
  (forall e, connectionEffect e = true -> P e) ->
  preserves R (establishConnection env version useMac waitMac).
Proof.
  intros HP'. assert (HP : forall e, connectionEffect e = true -> P e) by exact HP'.
  unfold establishConnection, mbind, M_bind.
  repeat first [ apply preserves_emit_effect; apply HP; reflexivity
               | apply preserves_newClient; intros; apply HP; reflexivity
               | apply preserves_close; apply HP; reflexivity
               | apply preserves_bind; [|intros ?]
               | apply preserves_try_catch; [|intros ?]
               | apply preserves_ret | apply preserves_throw | apply preserves_get
               | apply preserves_await
               | apply preserves_modify; intros; apply R_set_service ].
  - destruct version as [v|]; [case_bool_decide|];
      first [ apply preserves_ret
            | apply preserves_getLatestProtoVersion, HP; reflexivity ].
  - destruct useMac; [|apply preserves_ret].
    repeat first [ apply preserves_emit_effect; apply HP; reflexivity
                 | apply preserves_bind; [|intros ?]
                 | apply preserves_await | apply preserves_ret ].
    destruct waitMac; [|apply preserves_ret].
    apply preserves_bind; [apply preserves_emit_effect, HP; reflexivity|intros ?].
    apply preserves_await.
Qed.
End Preserves.

Lemma untouched_refl w : untouched w w.
Proof. repeat split. Qed.

Lemma untouched_trans w1 w2 w3 : untouched w1 w2 -> untouched w2 w3 -> untouched w1 w3.
Proof. unfold untouched. intros H1 H2. intuition congruence. Qed.

Lemma sameMacaroonEffects_effect e w :
  usesMacaroon e = false -> sameMacaroonEffects w (effect e w).
Proof.
  intros He. unfold sameMacaroonEffects, macaroonEffects, effect. simpl.
  rewrite List.filter_app. simpl. rewrite He. apply app_nil_r.
Qed.

Lemma establishConnection_untouched env version useMac waitMac w :
  untouched w (establishConnection env version useMac waitMac w).2.
Proof.
  apply (preserves_establishConnection untouched untouched_refl untouched_trans
           (fun _ => True)); try (intros; repeat split); exact I.
Qed.

Lemma subscribeCalls_effect e w :
  e <> InvokeSubscribe -> subscribeCalls (effect e w) = subscribeCalls w.
Proof.
  intros He. unfold subscribeCalls, effect. simpl.
  rewrite count_occ_app. simpl.
  destruct (Effect_eq_dec e InvokeSubscribe); [contradiction|]. lia.
Qed.

Lemma establishConnection_subscribeCalls env version useMac waitMac w :
  subscribeCalls (establishConnection env version useMac waitMac w).2 = subscribeCalls w.
Proof.
  apply (preserves_establishConnection
           (fun w w' => subscribeCalls w' = subscribeCalls w)
           (fun w => eq_refl) (fun w1 w2 w3 H1 H2 => eq_trans H2 H1)
           (fun e => e <> InvokeSubscribe)); try reflexivity.
  - apply subscribeCalls_effect.
  - intros [] ?; discriminate.
Qed.

Lemma establishConnection_without_macaroon env version waitMac w :
  sameMacaroonEffects w (establishConnection env version false waitMac w).2.
Proof.
  apply (preserves_establishConnection_plain sameMacaroonEffects
           (fun w => eq_refl) (fun w1 w2 w3 H1 H2 => eq_trans H2 H1)
           (fun e => usesMacaroon e = false)); try reflexivity.
  - apply sameMacaroonEffects_effect.
  - auto.
Qed.

(** ** The hooks of [connect] *)

Lemma onBeforeConnect_unfold env w :
  onBeforeConnect env w
  = establishConnection env None
      (cs_useMacaroon (_getConnectionSettings w))
      (cs_waitForMacaroon (_getConnectionSettings w))
      (effect (Info (Connecting (serviceName w))) w).
Proof. reflexivity. Qed.

Lemma onBeforeConnect_untouched env w : untouched w (onBeforeConnect env w).2.
Proof.
  rewrite onBeforeConnect_unfold.
  eapply untouched_trans; [|apply establishConnection_untouched].
  repeat split.
Qed.

Lemma seek_connect s : seek tConnect s = if decide (s = ready) then Some connected else None.
Proof. destruct s; reflexivity. Qed.

Lemma seek_disconnect s :
  seek tDisconnect s = if decide (s = connected) then Some ready else None.
Proof. destruct s; reflexivity. Qed.

Lemma connect_outcome env w :
  fsm_state w = ready -> fsm_pending w = false ->
  connect env w
  = match onBeforeConnect env (set_fsm_pending true w) with
    | (Err e, w1) => Failed e (set_fsm_pending false w1)
    | (Ok _, w1) =>
      Done (set_fsm_pending false (onAfterConnect (set_fsm_state connected w1)))
    end.
Proof. intros Hs Hp. unfold connect. rewrite Hs, Hp. reflexivity. Qed.

Lemma connect_rejected env w :
  fsm_state w <> ready \/ fsm_pending w = true ->
  exists msg, connect env w = Failed (InvalidTransitionError msg) w.
Proof.
  intros H. unfold connect. rewrite seek_connect.
  destruct (decide (fsm_state w = ready)) as [Hs|Hs].
  - destruct H as [H|H]; [contradiction|]. rewrite H. eauto.
  - eauto.
Qed.

Lemma onAfterConnect_subscribeCalls w :
  subscribeCalls (onAfterConnect w) = subscribeCalls w.
Proof.
  unfold onAfterConnect, delay.
  rewrite !subscribeCalls_effect by discriminate. reflexivity.
Qed.

Lemma connect_done env w w' :
  connect env w = Done w' ->
  fsm_state w = ready /\ fsm_pending w = false /\
  fsm_state w' = connected /\ fsm_pending w' = false /\
  subscriptions w' = subscriptions w /\
  timers w' = timers w ++ [now w + 2000] /\ now w' = now w /\
  streams w' = streams w /\ listeners w' = listeners w /\
  promises w' = promises w /\ nextCall w' = nextCall w /\
  awaiting w' = awaiting w /\ serviceName w' = serviceName w /\
  subscribeCalls w' = subscribeCalls w.
Proof.
  unfold connect. rewrite seek_connect.
  destruct (decide (fsm_state w = ready)) as [Hs|Hs]; [|discriminate].
  destruct (fsm_pending w) eqn:Hp; [discriminate|].
  pose proof (onBeforeConnect_untouched env (set_fsm_pending true w)) as Hu.
  assert (Hc : subscribeCalls (onBeforeConnect env (set_fsm_pending true w)).2
               = subscribeCalls w).
  { rewrite onBeforeConnect_unfold, establishConnection_subscribeCalls.
    rewrite subscribeCalls_effect by discriminate. reflexivity. }
  destruct (onBeforeConnect env (set_fsm_pending true w)) as [[[]|e] w1];
    [|discriminate].
  intros [= <-].
  assert (Hc' : subscribeCalls
                  (set_fsm_pending false (onAfterConnect (set_fsm_state connected w1)))
                = subscribeCalls w).
  { rewrite <- Hc. apply (onAfterConnect_subscribeCalls (set_fsm_state connected w1)). }
  unfold untouched in Hu. simpl in Hu.
  destruct Hu as (? & ? & ? & ? & ? & ? & ? & ? & ? & ? & ? & ? & ?).
  repeat split; try assumption; simpl; congruence.
Qed.
Lemma connect_untouched env w :
  let w' := world_of (connect env w) in
  serviceName w' = serviceName w /\ lndConfig w' = lndConfig w /\
  subscriptions w' = subscriptions w /\ useMacaroon w' = useMacaroon w /\
  streams w' = streams w /\ listeners w' = listeners w /\
  promises w' = promises w /\ nextCall w' = nextCall w /\
  awaiting w' = awaiting w.
Proof.
  unfold connect. destruct (seek tConnect (fsm_state w)); [|repeat split].
  destruct (fsm_pending w); [repeat split|].
  pose proof (onBeforeConnect_untouched env (set_fsm_pending true w)) as Hu.
  destruct (onBeforeConnect env (set_fsm_pending true w)) as [[[]|e] w1];
    unfold untouched in Hu; simpl in *;
    destruct Hu as (? & ? & ? & ? & ? & ? & ? & ? & ? & ? & ? & ? & ?);
    repeat split; assumption.
Qed.

Lemma sameMacaroonEffects_connect env w :
  useMacaroon w = false -> sameMacaroonEffects w (world_of (connect env w)).
Proof.
  intros Hflag. unfold connect.
  destruct (seek tConnect (fsm_state w)); [|reflexivity].
  destruct (fsm_pending w); [reflexivity|].
  assert (Hb : sameMacaroonEffects w (onBeforeConnect env (set_fsm_pending true w)).2).
  { rewrite onBeforeConnect_unfold, settings_useMacaroon. simpl. rewrite Hflag. simpl.
    unfold sameMacaroonEffects.
    rewrite establishConnection_without_macaroon.
    apply (sameMacaroonEffects_effect _ (set_fsm_pending true w)). reflexivity. }
  destruct (onBeforeConnect env (set_fsm_pending true w)) as [[[]|e] w1]; simpl in *.
  - unfold sameMacaroonEffects, macaroonEffects in *. rewrite <- Hb.
    simpl. rewrite !List.filter_app. simpl. rewrite !app_nil_r. reflexivity.
  - exact Hb.
Qed.

(** C10. The constructor sets the instance flag; the derived useMacaroon is
    the flag and-ed with [id !== 'tmp']; and with the flag cleared, whatever
    the configuration and the outside, the derived setting is false and a
    connect builds, waits for and attaches no macaroon credentials. *)
Theorem useMacaroon_instance_flag :
  (forall name cfg ss t, useMacaroon (GrpcService name cfg ss t) = true) /\
  (forall w, cs_useMacaroon (_getConnectionSettings w)
             = useMacaroon w && negb (bool_decide (id (lndConfig w) = "tmp"))) /\
  (forall env w, useMacaroon w = false ->
     cs_useMacaroon (_getConnectionSettings w) = false /\
     macaroonEffects (world_of (connect env w)) = macaroonEffects w).
Proof.
  split; [reflexivity|]. split; [reflexivity|].
  intros env w Hflag. split.
  - rewrite settings_useMacaroon, Hflag. reflexivity.
  - apply sameMacaroonEffects_connect, Hflag.
Qed.

Lemma useMacaroon_instance_flag_witness :
  let w := set_useMacaroon false sampleService in
  useMacaroon w = false /\
  cs_useMacaroon (_getConnectionSettings w) = false /\
  macaroonEffects (world_of (connect envReady w)) = macaroonEffects w.
Proof.
  intros w. split; [reflexivity|].
  destruct useMacaroon_instance_flag as (_ & _ & H).
  apply (H envReady w). reflexivity.
Defined.
(** ** Cancellation requests *)

Lemma sameInstance_refl w : sameInstance w w.
Proof. repeat split. Qed.

Lemma sameInstance_trans w1 w2 w3 :
  sameInstance w1 w2 -> sameInstance w2 w3 -> sameInstance w1 w3.
Proof. unfold sameInstance. intros H1 H2. intuition congruence. Qed.

Lemma cancel_registered key c w :
  subscriptions w !! key = Some c ->
  _cancelSubscription key w
  = (OnPromise (length (promises w)),
     effect (Cancel c)
       (call_on c (onStatus key (length (promises w)))
          (set_promises (promises w ++ [Pending])
             (effect (Info (UnsubscribingFrom (serviceName w) key)) w)))).
Proof. intros H. unfold _cancelSubscription. simpl. rewrite H. reflexivity. Qed.

Lemma cancel_unregistered key w :
  subscriptions w !! key = None ->
  _cancelSubscription key w
  = (Rejected (notAStream key "cancel"),
     set_promises (promises w ++ [RejectedWith (notAStream key "on")])
       (effect (Info (UnsubscribingFrom (serviceName w) key)) w)).
Proof. intros H. unfold _cancelSubscription. simpl. rewrite H. reflexivity. Qed.

Lemma cancel_sameInstance key w : sameInstance w (_cancelSubscription key w).2.
Proof.
  destruct (subscriptions w !! key) as [c|] eqn:H.
  - rewrite (cancel_registered _ _ _ H). repeat split.
  - rewrite (cancel_unregistered _ _ H). repeat split.
Qed.

Lemma cancelEach_sameInstance ks w : sameInstance w (cancelEach ks w).2.
Proof.
  revert w. induction ks as [|k ks IH]; intros w; simpl.
  - apply sameInstance_refl.
  - pose proof (cancel_sameInstance k w) as H1.
    destruct (_cancelSubscription k w) as [f w1]. specialize (IH w1).
    destruct (cancelEach ks w1) as [fs w2]. simpl in *.
    eapply sameInstance_trans; eassumption.
Qed.

Lemma unsubscribe_sameInstance w : sameInstance w (unsubscribe w).2.
Proof.
  unfold unsubscribe.
  eapply sameInstance_trans; [|apply cancelEach_sameInstance]. repeat split.
Qed.



(** C7 as stated fails: a freshly constructed service has no entry
    "invoices"; [call] is [undefined], [call.on] throws inside the executor
    of [result] and [call.cancel()] throws out of the async body. The future
    that comes back is rejected, not resolved. The same happens under a name
    every Array answers to without holding a stream, with another message. *)
Lemma cancel_unregistered_is_not_resolved :
  subscriptions sampleService !! "invoices" = None /\
  subscriptions sampleService !! "length" = None /\
  (let (fut, w') := _cancelSubscription "invoices" sampleService in
   fut = Rejected (TypeError_undefined "cancel") /\
   future_state w' fut <> Resolved) /\
  (let (fut, w') := _cancelSubscription "length" sampleService in
   fut = Rejected (TypeError_notAFunction "cancel") /\
   future_state w' fut <> Resolved).
Proof. vm_compute. repeat split; discriminate. Qed.

(** ** Transition guards *)

Lemma disconnect_rejected w :
  fsm_state w <> connected \/ fsm_pending w = true ->
  exists msg, disconnect w = Failed (InvalidTransitionError msg) w.
Proof.
  intros H. unfold disconnect. rewrite seek_disconnect.
  destruct (decide (fsm_state w = connected)) as [Hs|Hs].
  - destruct H as [H|H]; [contradiction|]. rewrite H. eauto.
  - eauto.
Qed.

Lemma finishDisconnect_fields w :
  let w' := finishDisconnect w in
  fsm_state w' = ready /\ fsm_pending w' = false /\ awaiting w' = None /\
  subscriptions w' = subscriptions w /\ timers w' = timers w /\
  now w' = now w /\ streams w' = streams w /\ listeners w' = listeners w /\
  promises w' = promises w /\ nextCall w' = nextCall w /\
  serviceName w' = serviceName w /\ subscribeCalls w' = subscribeCalls w.
Proof.
  unfold finishDisconnect. destruct (service w) as [h|]; simpl; repeat split.
  unfold close.
  apply (subscribeCalls_effect (Close h) (set_clients (<[h:=false]> (clients w)) w)).
  discriminate.
Qed.

Lemma disconnect_started w w' :
  disconnect w = Done w' \/ disconnect w = Suspended w' ->
  fsm_state w = connected /\ fsm_pending w = false.
Proof.
  unfold disconnect. rewrite seek_disconnect.
  destruct (decide (fsm_state w = connected)) as [Hs|Hs];
    [|intros [?|?]; discriminate].
  destruct (fsm_pending w); [intros [?|?]; discriminate|]. auto.
Qed.

Lemma disconnect_done_state w w' : disconnect w = Done w' -> fsm_state w' = ready.
Proof.
  unfold disconnect. destruct (seek tDisconnect (fsm_state w)); [|discriminate].
  destruct (fsm_pending w); [discriminate|].
  destruct (unsubscribe _) as [futs w3].
  destruct (all_state w3 futs); try discriminate.
  intros [= <-]. apply finishDisconnect_fields.
Qed.

Lemma disconnect_suspended_state w w' :
  disconnect w = Suspended w' -> fsm_state w' = connected /\ fsm_pending w' = true.
Proof.
  intros H. destruct (disconnect_started w w' (or_intror H)) as [Hs Hp].
  revert H. unfold disconnect. rewrite seek_disconnect, decide_True by assumption.
  rewrite Hp.
  pose proof (unsubscribe_sameInstance
                (effect (Info (Disconnecting (serviceName w))) (set_fsm_pending true w)))
    as Hu.
  destruct (unsubscribe _) as [futs w3].
  destruct (all_state w3 futs); try discriminate.
  intros [= <-]. unfold sameInstance in Hu. simpl in *.
  destruct Hu as (? & ? & ? & ? & _). split; congruence.
Qed.

(** C2. [connect] requested in any situation other than state [ready] with
    no transition in flight, and [disconnect] in any situation other than
    state [connected] with no transition in flight, fails with an
    InvalidTransitionError and leaves the whole world, so the state and the
    registry, as it was; a transition that does go through started from the
    state the table names and ends in its target. *)
Theorem transition_guards env w :
  (fsm_state w <> ready \/ fsm_pending w = true ->
   exists msg, connect env w = Failed (InvalidTransitionError msg) w) /\
  (fsm_state w <> connected \/ fsm_pending w = true ->
   exists msg, disconnect w = Failed (InvalidTransitionError msg) w) /\
  (forall w', connect env w = Done w' ->
   fsm_state w = ready /\ fsm_pending w = false /\ fsm_state w' = connected) /\
  (forall w', disconnect w = Done w' ->
   fsm_state w = connected /\ fsm_pending w = false /\ fsm_state w' = ready) /\
  (forall w', disconnect w = Suspended w' ->
   fsm_state w = connected /\ fsm_pending w = false /\ fsm_state w' = connected) /\
  (forall w', connect env w <> Suspended w').
Proof.
  split; [apply connect_rejected|]. split; [apply disconnect_rejected|].
  split; [|split; [|split]].
  - intros w' H. apply connect_done in H. tauto.
  - intros w' H. destruct (disconnect_started w w' (or_introl H)).
    pose proof (disconnect_done_state _ _ H). tauto.
  - intros w' H. destruct (disconnect_started w w' (or_intror H)).
    pose proof (disconnect_suspended_state _ _ H). tauto.
  - intros w'. unfold connect. destruct (seek _ _); [|discriminate].
    destruct (fsm_pending w); [discriminate|].
    destruct (onBeforeConnect _ _) as [[[]|e] w1]; discriminate.
Qed.

Lemma transition_guards_witness :
  let w := world_of (connect envReady sampleService) in
  fsm_state w = connected /\
  (exists msg, connect envReady w = Failed (InvalidTransitionError msg) w) /\
  (exists msg, disconnect sampleService
               = Failed (InvalidTransitionError msg) sampleService) /\
  fsm_state sampleService = ready.
Proof.
  intros w.
  destruct (transition_guards envReady w) as (Hc & _).
  destruct (transition_guards envReady sampleService) as (_ & Hd & Hdone & _).
  split; [reflexivity|]. split; [|split].
  - apply Hc. left. discriminate.
  - apply Hd. left. discriminate.
  - apply (Hdone w). reflexivity.
Defined.
(** ** A readiness probe that fails *)

Lemma insert_last {A} (l : list A) (x y : A) : <[length l := y]> (l ++ [x]) = l ++ [y].
Proof.
  rewrite insert_app_r_alt by reflexivity. rewrite Nat.sub_diag. reflexivity.
Qed.

(** Running the monad one step at a time. *)
Lemma step_get {B} (k : World -> M B) w : bind get k w = k w w.
Proof. reflexivity. Qed.

Lemma step_emit {B} e (k : unit -> M B) w :
  bind (emit_effect e) k w = k tt (effect e w).
Proof. reflexivity. Qed.

Lemma step_modify {B} f (k : unit -> M B) w : bind (modify f) k w = k tt (f w).
Proof. reflexivity. Qed.

Lemma step_await_ok {B} o (k : unit -> M B) w :
  o = None -> bind (await o) k w = k tt w.
Proof. intros ->. reflexivity. Qed.

Lemma step_await_fails {B} o e (k : unit -> M B) w :
  o = Some e -> bind (await o) k w = (Err e, w).
Proof. intros ->. reflexivity. Qed.

Lemma step_latest_ok {B} env path v (k : string -> M B) w :
  latestProtoVersion env = Ok v ->
  bind (getLatestProtoVersion env path) k w
  = k v (effect (GetLatestProtoVersion path) w).
Proof.
  intros H. unfold getLatestProtoVersion, bind, emit_effect, modify. rewrite H.
  reflexivity.
Qed.

Lemma step_latest_fails {B} env path e (k : string -> M B) w :
  latestProtoVersion env = Err e ->
  bind (getLatestProtoVersion env path) k w
  = (Err e, effect (GetLatestProtoVersion path) w).
Proof.
  intros H. unfold getLatestProtoVersion, bind, emit_effect, modify. rewrite H.
  reflexivity.
Qed.

Lemma step_newClient {B} b (k : nat -> M B) w :
  bind (newClient b) k w
  = k (length (clients w))
      (effect (NewClient (serviceName w) (host (lndConfig w)) b (length (clients w)))
         (set_clients (clients w ++ [true]) w)).
Proof. reflexivity. Qed.

Lemma bind_assoc {A B C} (m : M A) (k1 : A -> M B) (k2 : B -> M C) w :
  bind (bind m k1) k2 w = bind m (fun a => bind (k1 a) k2) w.
Proof. unfold bind. destruct (m w) as [[a|e] w1]; reflexivity. Qed.

Lemma step_ret {A B} (a : A) (k : A -> M B) w : bind (ret a) k w = k a w.
Proof. reflexivity. Qed.

(** The probe and its handler, on the handle [h]. *)
Lemma probe_fails env h svc e w :
  waitForReadyResult env (getDeadline 10 (now w)) = Some e ->
  try_catch
    (bind get (fun w' =>
       bind (emit_effect (WaitForReady h (getDeadline 10 (now w'))))
            (fun _ => await (waitForReadyResult env (getDeadline 10 (now w'))))))
    (fun e => bind (emit_effect (Warn (UnableToConnect svc e)))
                (fun _ => bind (modify (close h)) (fun _ => throw e)))
    w
  = (Err e,
     close h (effect (Warn (UnableToConnect svc e))
                (effect (WaitForReady h (getDeadline 10 (now w))) w))).
Proof.
  intros H. unfold try_catch. rewrite step_get, step_emit.
  change (now (effect (WaitForReady h (getDeadline 10 (now w))) w)) with (now w).
  unfold await. rewrite H. reflexivity.
Qed.

Lemma probe_succeeds env h svc w :
  waitForReadyResult env (getDeadline 10 (now w)) = None ->
  try_catch
    (bind get (fun w' =>
       bind (emit_effect (WaitForReady h (getDeadline 10 (now w'))))
            (fun _ => await (waitForReadyResult env (getDeadline 10 (now w'))))))
    (fun e => bind (emit_effect (Warn (UnableToConnect svc e)))
                (fun _ => bind (modify (close h)) (fun _ => throw e)))
    w
  = (Ok tt, effect (WaitForReady h (getDeadline 10 (now w))) w).
Proof.
  intros H. unfold try_catch. rewrite step_get, step_emit.
  unfold await. rewrite H. reflexivity.
Qed.

Ltac run_steps :=
  repeat (progress (rewrite ?bind_assoc, ?step_get, ?step_emit, ?step_modify,
                      ?step_ret, ?step_newClient; cbv beta)).

Lemma establishConnection_probe_fails env useMac waitMac w v e :
  latestProtoVersion env = Ok v ->
  loadResult env = None -> sslCredsResult env = None ->
  (useMac = true ->
   (waitMac = true -> waitForFileResult env = None) /\
   macaroonCredsResult env = None) ->
  waitForReadyResult env (getDeadline 10 (now w)) = Some e ->
  let r := establishConnection env None useMac waitMac w in
  let h := length (clients w) in
  r.1 = Err e /\
  service r.2 = Some h /\
  clients r.2 = clients w ++ [false] /\
  trace r.2 = trace w ++ effectsBeforeProbe w v useMac waitMac
                      ++ effectsOfFailedProbe w useMac h e.
Proof.
  intros Hv Hload Hssl Hmac Hprobe.
  unfold establishConnection, mbind, M_bind.
  rewrite step_get. cbv beta zeta.
  rewrite (step_latest_ok _ _ _ _ _ Hv). run_steps.
  rewrite (step_await_ok _ _ _ Hload). run_steps.
  rewrite (step_await_ok _ _ _ Hssl).
  destruct useMac.
  - destruct (Hmac eq_refl) as [Hwait Hcreds]. destruct waitMac.
    + run_steps. rewrite (step_await_ok _ _ _ (Hwait eq_refl)). run_steps.
      rewrite (step_await_ok _ _ _ Hcreds). run_steps.
      rewrite (probe_fails _ _ _ e) by exact Hprobe.
      cbn [fst snd]. unfold close, effectsBeforeProbe, effectsOfFailedProbe. simpl.
      rewrite insert_last, <- !app_assoc. repeat split.
    + run_steps. rewrite (step_await_ok _ _ _ Hcreds). run_steps.
      rewrite (probe_fails _ _ _ e) by exact Hprobe.
      cbn [fst snd]. unfold close, effectsBeforeProbe, effectsOfFailedProbe. simpl.
      rewrite insert_last, <- !app_assoc. repeat split.
  - run_steps. rewrite (probe_fails _ _ _ e) by exact Hprobe.
    cbn [fst snd]. unfold close, effectsBeforeProbe, effectsOfFailedProbe. simpl.
    rewrite insert_last, <- !app_assoc. repeat split.
Qed.

Lemma isOpen_after_failed_probe (l : list bool) (h : nat) :
  (l ++ [false]) !! h = Some true <-> l !! h = Some true.
Proof.
  destruct (decide (h < length l)%nat) as [Hlt|Hge].
  - rewrite lookup_app_l by assumption. reflexivity.
  - rewrite lookup_app_r by lia. rewrite (lookup_ge_None_2 l h) by lia.
    destruct (h - length l)%nat as [|n]; simpl; [|rewrite lookup_nil];
      split; discriminate.
Qed.

(** C3 (amended). A connect whose readiness probe, asked with a deadline of
    10 time units from now, fails with [e]: the handle just created is
    closed before the failure is reported (the release is the last effect
    of the attempt), the failure reported is [e] itself, the state remains
    [ready] with no transition in flight, the registry is untouched, and
    the handles open afterwards are those that were open before. *)
Theorem failed_probe_releases_handle env w e :
  fsm_state w = ready -> fsm_pending w = false ->
  reachesProbe env (cs_useMacaroon (_getConnectionSettings w))
                   (cs_waitForMacaroon (_getConnectionSettings w)) ->
  waitForReadyResult env (getDeadline 10 (now w)) = Some e ->
  exists w' v,
    connect env w = Failed e w' /\
    latestProtoVersion env = Ok v /\
    fsm_state w' = ready /\ fsm_pending w' = false /\
    subscriptions w' = subscriptions w /\
    service w' = Some (length (clients w)) /\
    ~ isOpen w' (length (clients w)) /\
    (forall h, isOpen w' h <-> isOpen w h) /\
    trace w' = trace w ++ [Info (Connecting (serviceName w))]
               ++ effectsBeforeProbe w v (cs_useMacaroon (_getConnectionSettings w))
                    (cs_waitForMacaroon (_getConnectionSettings w))
               ++ effectsOfFailedProbe w (cs_useMacaroon (_getConnectionSettings w))
                    (length (clients w)) e.
Proof.
  intros Hs Hp (Hv & Hload & Hssl & Hmac) Hprobe. destruct Hv as [v Hv].
  rewrite (connect_outcome env w Hs Hp), onBeforeConnect_unfold.
  set (w0 := effect (Info (Connecting (serviceName (set_fsm_pending true w))))
               (set_fsm_pending true w)).
  pose proof (establishConnection_untouched env None
                (cs_useMacaroon (_getConnectionSettings (set_fsm_pending true w)))
                (cs_waitForMacaroon (_getConnectionSettings (set_fsm_pending true w)))
                w0) as Hu.
  destruct (establishConnection_probe_fails env _ _ w0 v e Hv Hload Hssl Hmac Hprobe)
    as (Herr & Hsvc & Hcl & Htr).
  destruct (establishConnection env None _ _ w0) as [r w1]. simpl in Herr. subst r.
  unfold untouched in Hu. simpl in Hu, Hsvc, Hcl, Htr.
  destruct Hu as (? & ? & ? & ? & ? & ? & ? & ? & ? & ? & ? & ? & ?).
  exists (set_fsm_pending false w1), v. simpl.
  split; [reflexivity|]. split; [assumption|].
  split; [congruence|]. split; [reflexivity|]. split; [assumption|].
  split; [assumption|]. unfold isOpen. simpl. rewrite Hcl.
  split; [|split].
  - rewrite lookup_app_r, Nat.sub_diag by reflexivity. discriminate.
  - intros h. apply isOpen_after_failed_probe.
  - rewrite Htr, <- app_assoc. reflexivity.
Qed.

Lemma failed_probe_releases_handle_witness :
  exists w', connect envUnreachable sampleService = Failed deadlineExceeded w' /\
             fsm_state w' = ready /\ ~ isOpen w' 0%nat.
Proof.
  destruct (failed_probe_releases_handle envUnreachable sampleService deadlineExceeded)
    as (w' & v & Hc & _ & Hst & _ & _ & _ & Hclosed & _).
  - reflexivity.
  - reflexivity.
  - split; [exists "0.9.0"; reflexivity|]. repeat split; reflexivity.
  - reflexivity.
  - exists w'. repeat split; assumption.
Defined.

(** C3 as stated fails: the probe of this attempt is rejected with
    [deadlineExceeded], and the error [connect] reports is that very error,
    not a ConnectionError wrapping it. *)
Lemma failed_probe_error_is_not_wrapped :
  waitForReadyResult envUnreachable (getDeadline 10 (now sampleService))
  = Some deadlineExceeded /\
  exists e w', connect envUnreachable sampleService = Failed e w' /\
               ~ wrapsCause e deadlineExceeded.
Proof.
  split; [reflexivity|].
  eexists _, _. split; [vm_compute; reflexivity|].
  intros [message H]. discriminate H.
Qed.
(** ** The settling delay *)

Lemma is_connected_spec w : is_ [connected] w = bool_decide (fsm_state w = connected).
Proof.
  unfold is_. apply bool_decide_ext. rewrite list_elem_of_singleton. reflexivity.
Qed.









(** The check-then-act policy of the delay: a second connect made inside
    the window lets the first timer find [connected] and subscribe. *)
Example reconnect_inside_window_subscribes :
  let w1 := world_of (connect envReady sampleService) in
  let w2 := world_of (disconnect (advance 500 w1)) in
  let w3 := world_of (connect envReady (advance 1000 w2)) in
  fsm_state w2 = ready /\ subscribeCalls (advance 2000 w3) = 1%nat.
Proof. vm_compute. split; reflexivity. Qed.
(** ** Listeners at work *)

Lemma resolve_promises p w :
  promises (resolve p w) = promises w \/
  (promises w !! p = Some Pending /\
   promises (resolve p w) = <[p := Resolved]> (promises w)).
Proof.
  unfold resolve. destruct (promises w !! p) as [[| |e]|] eqn:H; auto.
Qed.

(** What one listener can do to the promise store. *)
Lemma run_listener_promises ev w l :
  promises (run_listener ev w l) = promises w \/
  (exists key p, l = onStatus key p /\ ev = Status status.CANCELLED /\
                 promises w !! p = Some Pending /\
                 promises (run_listener ev w l) = <[p := Resolved]> (promises w)).
Proof.
  destruct l as [key|key p], ev as [|code]; simpl; auto.
  case_bool_decide as Hc; [|auto]. subst code.
  match goal with |- context [resolve p ?x] => destruct (resolve_promises p x) as [H|[H1 H2]] end.
  - left. exact H.
  - right. exists key, p. auto.
Qed.

(** What one listener can do to the registry. *)
Lemma run_listener_subscriptions ev w l :
  subscriptions (run_listener ev w l) = subscriptions w \/
  exists key, subscriptions (run_listener ev w l) = delete key (subscriptions w).
Proof.
  destruct l as [key|key p], ev as [|code]; simpl; eauto.
  case_bool_decide; [|auto]. right. exists key.
  unfold resolve. simpl. destruct (promises w !! p) as [[| |e]|]; reflexivity.
Qed.

Lemma run_listener_frame ev w l :
  let w' := run_listener ev w l in
  listeners w' = listeners w /\ nextCall w' = nextCall w /\
  serviceName w' = serviceName w /\ awaiting w' = awaiting w /\
  length (promises w') = length (promises w).
Proof.
  destruct l as [key|key p], ev as [|code]; simpl; try (repeat split; fail).
  case_bool_decide; [|repeat split].
  unfold resolve. simpl. destruct (promises w !! p) as [[| |e]|]; simpl;
    rewrite ?length_insert; repeat split.
Qed.

(** The cancellation listener on a confirmation. *)
Lemma run_onStatus_cancelled key p w :
  let w' := run_listener (Status status.CANCELLED) w (onStatus key p) in
  subscriptions w' !! key = None /\
  (promises w !! p = Some Pending -> promises w' !! p = Some Resolved).
Proof.
  simpl. unfold resolve. simpl. split.
  - destruct (promises w !! p) as [[| |e]|]; simpl; apply lookup_delete_eq.
  - intros H. rewrite H. simpl. apply list_lookup_insert_eq.
    apply lookup_lt_Some in H. exact H.
Qed.

(** The 'end' listener on the end of the stream. *)
Lemma run_onEnd key w :
  let w' := run_listener End w (onEnd key) in
  subscriptions w' = delete key (subscriptions w) /\
  trace w' = trace w ++ [Info (SubscriptionEnded (serviceName w) key)].
Proof. split; reflexivity. Qed.

(** A settled promise stays as it is; a pending one can only be resolved. *)
Lemma run_listener_settled ev w l p s :
  promises w !! p = Some s -> s <> Pending ->
  promises (run_listener ev w l) !! p = Some s.
Proof.
  intros Hp Hs.
  destruct (run_listener_promises ev w l) as [H|(key & p' & _ & _ & Hpend & H)];
    rewrite H; [exact Hp|].
  destruct (decide (p' = p)) as [->|Hne]; [congruence|].
  rewrite list_lookup_insert_ne by exact Hne. exact Hp.
Qed.

Lemma run_listener_pending ev w l p :
  promises w !! p = Some Pending ->
  promises (run_listener ev w l) !! p = Some Pending \/
  (promises (run_listener ev w l) !! p = Some Resolved /\
   ev = Status status.CANCELLED /\ exists key, l = onStatus key p).
Proof.
  intros Hp.
  destruct (run_listener_promises ev w l) as [H|(key & p' & Hl & Hev & Hpend & H)];
    rewrite H; [left; exact Hp|].
  destruct (decide (p' = p)) as [->|Hne].
  - right. rewrite list_lookup_insert_eq by (eapply lookup_lt_Some; eassumption). eauto.
  - left. rewrite list_lookup_insert_ne by exact Hne. exact Hp.
Qed.

Lemma run_listener_deleted ev w l key :
  subscriptions w !! key = None -> subscriptions (run_listener ev w l) !! key = None.
Proof.
  intros Hk. destruct (run_listener_subscriptions ev w l) as [H|[key' H]]; rewrite H.
  - exact Hk.
  - rewrite lookup_delete. case_decide; [reflexivity | exact Hk].
Qed.

(** ** One emission *)

Section Emission.
Variable ev : StreamEvent.

Lemma emission_frame ls w :
  let w' := foldl (run_listener ev) w ls in
  listeners w' = listeners w /\ nextCall w' = nextCall w /\
  serviceName w' = serviceName w /\ awaiting w' = awaiting w /\
  length (promises w') = length (promises w).
Proof.
  revert w. induction ls as [|l ls IH]; intros w; simpl; [repeat split|].
  destruct (run_listener_frame ev w l) as (H1 & H2 & H3 & H4 & H5).
  destruct (IH (run_listener ev w l)) as (G1 & G2 & G3 & G4 & G5).
  repeat split; congruence.
Qed.

Lemma emission_settled ls w p s :
  promises w !! p = Some s -> s <> Pending ->
  promises (foldl (run_listener ev) w ls) !! p = Some s.
Proof.
  revert w. induction ls as [|l ls IH]; intros w Hp Hs; simpl; [exact Hp|].
  apply IH; [|exact Hs]. apply run_listener_settled; assumption.
Qed.

Lemma emission_deleted ls w key :
  subscriptions w !! key = None ->
  subscriptions (foldl (run_listener ev) w ls) !! key = None.
Proof.
  revert w. induction ls as [|l ls IH]; intros w Hk; simpl; [exact Hk|].
  apply IH, run_listener_deleted, Hk.
Qed.

Lemma emission_pending ls w p :
  promises w !! p = Some Pending ->
  promises (foldl (run_listener ev) w ls) !! p = Some Pending \/
  (promises (foldl (run_listener ev) w ls) !! p = Some Resolved /\
   ev = Status status.CANCELLED /\ exists key, onStatus key p ∈ ls).
Proof.
  revert w. induction ls as [|l ls IH]; intros w Hp; simpl; [left; exact Hp|].
  destruct (run_listener_pending ev w l p Hp) as [H|(H & Hev & key & ->)].
  - destruct (IH _ H) as [G|(G & Gev & key & Gin)]; [left; exact G|].
    right. split; [exact G|]. split; [exact Gev|]. exists key. right. exact Gin.
  - right. split; [|split; [exact Hev|exists key; left]].
    apply emission_settled; [exact H | discriminate].
Qed.
End Emission.

Lemma emission_confirms ls w key p :
  onStatus key p ∈ ls ->
  let w' := foldl (run_listener (Status status.CANCELLED)) w ls in
  subscriptions w' !! key = None /\
  (promises w !! p = Some Pending -> promises w' !! p = Some Resolved).
Proof.
  revert w. induction ls as [|l ls IH]; intros w Hin; [inversion Hin|].
  cbn zeta. simpl foldl.
  apply elem_of_cons in Hin as [<-|Hin].
  - destruct (run_onStatus_cancelled key p w) as [Hdel Hres]. split.
    + apply emission_deleted, Hdel.
    + intros Hp. apply emission_settled; [apply Hres, Hp | discriminate].
  - destruct (IH (run_listener (Status status.CANCELLED) w l) Hin) as [Hdel Hres].
    split; [exact Hdel|]. intros Hp.
    destruct (run_listener_pending (Status status.CANCELLED) w l p Hp)
      as [H|(H & _)].
    + apply Hres, H.
    + apply emission_settled; [exact H | discriminate].
Qed.

Lemma elem_of_listenersOf c l w : l ∈ listenersOf c w <-> (c, l) ∈ listeners w.
Proof.
  unfold listenersOf. rewrite list_elem_of_fmap. split.
  - intros ([c' l'] & -> & Hin). apply list_elem_of_filter in Hin as [Hc Hin].
    simpl in Hc. subst c'. exact Hin.
  - intros Hin. exists (c, l). split; [reflexivity|].
    apply list_elem_of_filter. split; [reflexivity | exact Hin].
Qed.
(** ** Events and the continuations they unblock *)

Lemma settle_frame w :
  let w' := settle w in
  listeners w' = listeners w /\ nextCall w' = nextCall w /\
  serviceName w' = serviceName w /\ promises w' = promises w /\
  subscriptions w' = subscriptions w.
Proof.
  unfold settle. destruct (awaiting w) as [futs|]; [|repeat split].
  destruct (all_state w futs); try (repeat split; fail).
  unfold finishDisconnect. destruct (service w); repeat split.
Qed.

Lemma deliver_frame w cev :
  let w' := deliver w cev in
  listeners w' = listeners w /\ nextCall w' = nextCall w /\
  serviceName w' = serviceName w /\ length (promises w') = length (promises w).
Proof.
  unfold deliver, emit.
  destruct (settle_frame (foldl (run_listener cev.2) w (listenersOf cev.1 w)))
    as (H1 & H2 & H3 & H4 & _).
  destruct (emission_frame cev.2 (listenersOf cev.1 w) w) as (G1 & G2 & G3 & _ & G5).
  simpl. rewrite H4. repeat split; congruence.
Qed.

Lemma deliver_promises w cev :
  promises (deliver w cev)
  = promises (foldl (run_listener cev.2) w (listenersOf cev.1 w)).
Proof. unfold deliver, emit. apply settle_frame. Qed.

Lemma deliver_subscriptions w cev :
  subscriptions (deliver w cev)
  = subscriptions (foldl (run_listener cev.2) w (listenersOf cev.1 w)).
Proof. unfold deliver, emit. apply settle_frame. Qed.

Lemma run_events_snoc evs cev w :
  run_events (evs ++ [cev]) w = deliver (run_events evs w) cev.
Proof. unfold run_events. apply foldl_snoc. Qed.

Lemma run_events_frame evs w :
  let w' := run_events evs w in
  listeners w' = listeners w /\ nextCall w' = nextCall w /\
  serviceName w' = serviceName w /\ length (promises w') = length (promises w).
Proof.
  induction evs as [|cev evs IH] using rev_ind; [repeat split|].
  rewrite run_events_snoc. destruct IH as (H1 & H2 & H3 & H4).
  destruct (deliver_frame (run_events evs w) cev) as (G1 & G2 & G3 & G4).
  simpl. repeat split; congruence.
Qed.

Lemma run_events_settled evs w p s :
  promises w !! p = Some s -> s <> Pending ->
  promises (run_events evs w) !! p = Some s.
Proof.
  intros Hp Hs. induction evs as [|cev evs IH] using rev_ind; [exact Hp|].
  rewrite run_events_snoc, deliver_promises. apply emission_settled; assumption.
Qed.


(** A pending promise stays pending until a stream that carries a listener
    holding its [resolve] reports the cancellation code; it is never
    rejected. *)
Lemma run_events_pending evs w p :
  promises w !! p = Some Pending ->
  promises (run_events evs w) !! p = Some Pending \/
  (promises (run_events evs w) !! p = Some Resolved /\
   exists c key, (c, onStatus key p) ∈ listeners w /\
                 (c, Status status.CANCELLED) ∈ evs).
Proof.
  intros Hp. induction evs as [|[c ev] evs IH] using rev_ind; [left; exact Hp|].
  rewrite run_events_snoc, deliver_promises. simpl.
  destruct IH as [IH|(IH & c' & key & Hin & Hev)].
  - destruct (emission_pending ev (listenersOf c (run_events evs w)) _ p IH)
      as [H|(H & -> & key & Hin)]; [left; exact H|].
    right. split; [exact H|]. exists c, key. split.
    + apply elem_of_listenersOf in Hin.
      destruct (run_events_frame evs w) as (Hl & _). rewrite <- Hl. exact Hin.
    + apply elem_of_app. right. left.
  - right. split; [apply emission_settled; [exact IH | discriminate]|].
    exists c', key. split; [exact Hin|]. apply elem_of_app. left. exact Hev.
Qed.

(** Once the stream of a cancellation listener reports the cancellation
    code, the entry is gone and the promise, if it was pending, resolved. *)
Lemma run_events_confirms evs w c key p :
  (c, onStatus key p) ∈ listeners w ->
  (c, Status status.CANCELLED) ∈ evs ->
  subscriptions (run_events evs w) !! key = None /\
  (promises w !! p = Some Pending ->
   promises (run_events evs w) !! p = Some Resolved).
Proof.
  intros Hl. induction evs as [|cev evs IH] using rev_ind; [intros H; inversion H|].
  intros Hin. rewrite run_events_snoc, deliver_promises, deliver_subscriptions.
  apply elem_of_app in Hin as [Hin|Hin].
  - destruct (IH Hin) as [Hdel Hres]. split.
    + apply emission_deleted, Hdel.
    + intros Hp. apply emission_settled; [apply Hres, Hp | discriminate].
  - apply list_elem_of_singleton in Hin. subst cev. simpl.
    assert (Hl' : onStatus key p ∈ listenersOf c (run_events evs w)).
    { apply elem_of_listenersOf. destruct (run_events_frame evs w) as (-> & _).
      exact Hl. }
    destruct (emission_confirms _ (run_events evs w) key p Hl') as [Hdel Hres].
    split; [exact Hdel|]. intros Hp.
    destruct (run_events_pending evs w p Hp) as [H|(H & _)].
    + apply Hres, H.
    + apply emission_settled; [exact H | discriminate].
Qed.
(** ** Cancellation futures *)

Lemma grows_refl w : grows w w.
Proof. split; [exists []; symmetry; apply app_nil_r|]. split; auto. Qed.

Lemma grows_trans w1 w2 w3 : grows w1 w2 -> grows w2 w3 -> grows w1 w3.
Proof.
  intros ([ps1 H1] & Hin1 & Hnew1) ([ps2 H2] & Hin2 & Hnew2). split; [|split].
  - exists (ps1 ++ ps2). rewrite H2, H1, app_assoc. reflexivity.
  - auto.
  - intros c key p H. destruct (Hnew2 c key p H) as [H'|H'].
    + apply Hnew1, H'.
    + right. rewrite H1, length_app in H'. lia.
Qed.

Lemma awaitsConfirmation_grows w w' key c fut :
  grows w w' ->
  awaitsConfirmation w key c fut -> awaitsConfirmation w' key c fut.
Proof.
  intros ([ps Hps] & Hin & Hnew) (p & -> & Hp & Hl & Hown).
  exists p. split; [reflexivity|]. split; [|split].
  - rewrite Hps. apply lookup_app_l_Some, Hp.
  - apply Hin, Hl.
  - intros c' key' H. destruct (Hnew c' key' p H) as [H'|H'].
    + eapply Hown, H'.
    + apply lookup_lt_Some in Hp. lia.
Qed.

Lemma cancel_registered_spec key c w :
  wf w -> subscriptions w !! key = Some c ->
  let r := _cancelSubscription key w in
  wf r.2 /\ grows w r.2 /\ awaitsConfirmation r.2 key c r.1.
Proof.
  intros [Hwl Hws] Hk. rewrite (cancel_registered _ _ _ Hk). simpl.
  split; [|split].
  - split; simpl; [|exact Hws].
    apply Forall_app. split.
    + eapply Forall_impl; [exact Hwl|]. intros [c' l] [H1 H2]. split; [exact H1|].
      simpl in *. destruct l; [exact I|]. rewrite length_app. simpl. lia.
    + repeat constructor; simpl.
      * apply (Hws key c Hk).
      * rewrite length_app. simpl. lia.
  - split; [exists [Pending]; reflexivity|]. split; simpl.
    + intros cl H. apply elem_of_app. left. exact H.
    + intros c' key' p H. apply elem_of_app in H as [H|H]; [left; exact H|].
      apply list_elem_of_singleton in H. injection H as -> -> ->. right. lia.
  - exists (length (promises w)). split; [reflexivity|]. simpl. split; [|split].
    + rewrite lookup_app_r, Nat.sub_diag by reflexivity. reflexivity.
    + apply elem_of_app. right. left.
    + intros c' key' H. apply elem_of_app in H as [H|H].
      * rewrite Forall_forall in Hwl. destruct (Hwl _ H) as [_ Hlt]. simpl in Hlt. lia.
      * apply list_elem_of_singleton in H. congruence.
Qed.

Lemma cancel_unregistered_spec key w :
  wf w -> subscriptions w !! key = None ->
  wf (_cancelSubscription key w).2 /\ grows w (_cancelSubscription key w).2.
Proof.
  intros [Hwl Hws] Hk. rewrite (cancel_unregistered _ _ Hk). simpl.
  split; [split; simpl; [|exact Hws]|].
  - eapply Forall_impl; [exact Hwl|]. intros [c' l] [H1 H2]. split; [exact H1|].
    simpl in *. destruct l; [exact I|]. rewrite length_app. simpl. lia.
  - split; [eexists; reflexivity|]. split; simpl; auto.
Qed.

Lemma cancel_wf key w : wf w -> wf (_cancelSubscription key w).2.
Proof.
  intros Hw. destruct (subscriptions w !! key) as [c|] eqn:Hk.
  - apply (cancel_registered_spec key c w Hw Hk).
  - apply (cancel_unregistered_spec key w Hw Hk).
Qed.

Lemma cancel_grows key w : wf w -> grows w (_cancelSubscription key w).2.
Proof.
  intros Hw. destruct (subscriptions w !! key) as [c|] eqn:Hk.
  - apply (cancel_registered_spec key c w Hw Hk).
  - apply (cancel_unregistered_spec key w Hw Hk).
Qed.

Lemma cancelEach_cons k ks w :
  cancelEach (k :: ks) w
  = let (f, w1) := _cancelSubscription k w in
    let (fs, w2) := cancelEach ks w1 in (f :: fs, w2).
Proof. reflexivity. Qed.

(** Cancelling the entries [kcs] of the registry one after the other. *)
Lemma cancelEach_spec kcs w :
  wf w ->
  Forall (fun kc => subscriptions w !! kc.1 = Some kc.2) kcs ->
  let r := cancelEach kcs.*1 w in
  wf r.2 /\ grows w r.2 /\
  Forall2 (fun kc fut => awaitsConfirmation r.2 kc.1 kc.2 fut) kcs r.1.
Proof.
  revert w. induction kcs as [|[k c] kcs IH]; intros w Hw Hreg.
  - split; [exact Hw|]. split; [apply grows_refl | constructor].
  - apply Forall_cons in Hreg as [Hk Hreg]. simpl in Hk.
    rewrite fmap_cons, cancelEach_cons. cbn [fst].
    destruct (cancel_registered_spec k c w Hw Hk) as (Hw1 & Hg1 & Ha1).
    pose proof (cancel_sameInstance k w) as Hs1.
    destruct (_cancelSubscription k w) as [f w1]. cbn [fst snd] in *.
    assert (Hreg1 : Forall (fun kc => subscriptions w1 !! kc.1 = Some kc.2) kcs).
    { destruct Hs1 as (_ & _ & _ & _ & -> & _). exact Hreg. }
    destruct (IH w1 Hw1 Hreg1) as (Hw2 & Hg2 & Ha2).
    destruct (cancelEach kcs.*1 w1) as [fs w2]. cbn [fst snd] in *.
    split; [exact Hw2|]. split; [eapply grows_trans; eassumption|].
    constructor; [|exact Ha2].
    eapply awaitsConfirmation_grows; eassumption.
Qed.

Lemma cancelEach_wf ks w : wf w -> wf (cancelEach ks w).2.
Proof.
  revert w. induction ks as [|k ks IH]; intros w Hw; simpl; [exact Hw|].
  pose proof (cancel_wf k w Hw) as Hw1.
  destruct (_cancelSubscription k w) as [f w1]. specialize (IH w1 Hw1).
  destruct (cancelEach ks w1) as [fs w2]. exact IH.
Qed.

(** The future of a cancellation under stream events. *)
Lemma awaitsConfirmation_run w key c fut evs :
  awaitsConfirmation w key c fut ->
  (future_state (run_events evs w) fut = Resolved <->
   (c, Status status.CANCELLED) ∈ evs) /\
  ((c, Status status.CANCELLED) ∉ evs ->
   future_state (run_events evs w) fut = Pending) /\
  ((c, Status status.CANCELLED) ∈ evs ->
   subscriptions (run_events evs w) !! key = None).
Proof.
  intros (p & -> & Hp & Hl & Hown). simpl.
  assert (Hnot : (c, Status status.CANCELLED) ∉ evs ->
                 promises (run_events evs w) !! p = Some Pending).
  { intros Hnin.
    destruct (run_events_pending evs w p Hp) as [H|(_ & c' & key' & Hin & Hev)];
      [exact H|].
    rewrite (Hown _ _ Hin) in Hev. contradiction. }
  split; [split|split].
  - intros H. destruct (decide ((c, Status status.CANCELLED) ∈ evs)) as [|Hnin];
      [assumption|].
    rewrite (Hnot Hnin) in H. discriminate.
  - intros Hev. destruct (run_events_confirms evs w c key p Hl Hev) as [_ Hres].
    rewrite (Hres Hp). reflexivity.
  - intros Hnin. rewrite (Hnot Hnin). reflexivity.
  - intros Hev. apply (run_events_confirms evs w c key p Hl Hev).
Qed.
(** ** cancelOne (C1) *)

(** C1. For a registered name, [_cancelSubscription] issues the cancel
    request and returns a future that is still pending then, with the entry
    still registered; whatever the streams emit afterwards, the future is
    resolved exactly when the stream has reported a status with code
    CANCELLED, and once it has, the entry is no longer in the registry. *)
Theorem cancel_resolves_on_confirmation_only key c w :
  wf w -> subscriptions w !! key = Some c ->
  exists p w1,
    _cancelSubscription key w = (OnPromise p, w1) /\
    trace w1 = trace w ++ [Info (UnsubscribingFrom (serviceName w) key); Cancel c] /\
    future_state w1 (OnPromise p) = Pending /\
    subscriptions w1 !! key = Some c /\
    forall evs,
      (future_state (run_events evs w1) (OnPromise p) = Resolved <->
       (c, Status status.CANCELLED) ∈ evs) /\
      ((c, Status status.CANCELLED) ∈ evs ->
       subscriptions (run_events evs w1) !! key = None).
Proof.
  intros Hw Hk.
  destruct (cancel_registered_spec key c w Hw Hk) as (_ & _ & Ha).
  rewrite (cancel_registered _ _ _ Hk) in *. cbn [fst snd] in Ha.
  eexists _, _. split; [reflexivity|]. split.
  { simpl. rewrite <- app_assoc. reflexivity. }
  split.
  { simpl. rewrite lookup_app_r, Nat.sub_diag by reflexivity. reflexivity. }
  split; [exact Hk|].
  intros evs. destruct (awaitsConfirmation_run _ _ _ _ evs Ha) as (H1 & _ & H3).
  split; assumption.
Qed.

Lemma sampleSubscribed_wf : wf sampleSubscribed.
Proof. apply (bool_decide_unpack _); vm_compute; exact I. Qed.

Lemma cancel_resolves_on_confirmation_only_witness :
  exists p w1,
    _cancelSubscription "invoices" sampleSubscribed = (OnPromise p, w1) /\
    future_state w1 (OnPromise p) = Pending /\
    future_state (run_events [(0%nat, Status status.CANCELLED)] w1) (OnPromise p)
    = Resolved.
Proof.
  destruct (cancel_resolves_on_confirmation_only "invoices" 0%nat sampleSubscribed)
    as (p & w1 & Hc & _ & Hpend & _ & Hrun).
  - apply (bool_decide_unpack _); vm_compute; exact I.
  - vm_compute. reflexivity.
  - exists p, w1. split; [exact Hc|]. split; [exact Hpend|].
    apply (Hrun [(0%nat, Status status.CANCELLED)]). left.
Defined.
(** ** cancelAll (C6) *)

Lemma all_state_resolved w futs :
  all_state w futs = Resolved <-> Forall (fun f => future_state w f = Resolved) futs.
Proof.
  induction futs as [|f futs IH]; simpl; [split; auto|].
  rewrite Forall_cons, <- IH.
  destruct (future_state w f), (all_state w futs); split;
    try discriminate; try tauto; intros [? ?]; discriminate.
Qed.

Lemma all_confirmed w kcs futs evs :
  Forall2 (fun kc fut => awaitsConfirmation w kc.1 kc.2 fut) kcs futs ->
  Forall (fun f => future_state (run_events evs w) f = Resolved) futs <->
  Forall (fun kc => (kc.2, Status status.CANCELLED) ∈ evs) kcs.
Proof.
  induction 1 as [|kc fut kcs futs Ha _ IH]; [split; constructor|].
  rewrite !Forall_cons, IH.
  destruct (awaitsConfirmation_run _ _ _ _ evs Ha) as (H1 & _). tauto.
Qed.

Lemma effect_wf e w : wf w -> wf (effect e w).
Proof. intros H. exact H. Qed.

Lemma unsubscribe_spec w :
  wf w ->
  let r := unsubscribe w in
  wf r.2 /\ subscriptions r.2 = subscriptions w /\
  Forall2 (fun kc fut => awaitsConfirmation r.2 kc.1 kc.2 fut)
          (map_to_list (subscriptions w)) r.1.
Proof.
  intros Hw. unfold unsubscribe, keys.
  set (w0 := effect (Info (UnsubscribingAll (serviceName w)
                            (map_to_list (subscriptions w)).*1)) w).
  assert (Hreg : Forall (fun kc => subscriptions w0 !! kc.1 = Some kc.2)
                        (map_to_list (subscriptions w))).
  { apply Forall_forall. intros [k c] Hin. apply elem_of_map_to_list in Hin. exact Hin. }
  destruct (cancelEach_spec _ w0 (effect_wf _ w Hw) Hreg) as (Hw1 & _ & Ha).
  split; [exact Hw1|]. split; [|exact Ha].
  apply (cancelEach_sameInstance _ w0).
Qed.


(** ** subscribe and the end of a stream (C8) *)

Lemma openStreams_frame ks w :
  let w' := foldl openStream w ks in
  listeners w' = listeners w /\ promises w' = promises w /\
  serviceName w' = serviceName w /\ (nextCall w <= nextCall w')%nat /\
  nextCall w' = (nextCall w + length ks)%nat.
Proof.
  revert w. induction ks as [|k ks IH]; intros w; simpl.
  - repeat split; lia.
  - destruct (IH (openStream w k)) as (H1 & H2 & H3 & H4 & H5). simpl in *.
    repeat split; try assumption; lia.
Qed.

Lemma openStreams_other ks w key :
  key ∉ ks -> subscriptions (foldl openStream w ks) !! key = subscriptions w !! key.
Proof.
  revert w. induction ks as [|k ks IH]; intros w Hnin; simpl; [reflexivity|].
  apply not_elem_of_cons in Hnin as [Hne Hnin].
  rewrite IH by exact Hnin. simpl. apply lookup_insert_ne. congruence.
Qed.

(** A stream the subclass opens is registered under a fresh identity. *)
Lemma openStreams_lookup ks w key :
  key ∈ ks ->
  exists c, subscriptions (foldl openStream w ks) !! key = Some c /\
            (nextCall w <= c)%nat.
Proof.
  revert w. induction ks as [|k ks IH]; intros w Hin; [inversion Hin|]. simpl.
  destruct (decide (key ∈ ks)) as [Hks|Hks].
  - destruct (IH (openStream w k) Hks) as (c & Hc & Hle). exists c.
    split; [exact Hc|]. simpl in Hle. lia.
  - apply elem_of_cons in Hin as [->|Hin]; [|contradiction].
    exists (nextCall w). rewrite openStreams_other by exact Hks. simpl.
    split; [apply lookup_insert_eq | lia].
Qed.

Lemma openStreams_wf ks w : wf w -> wf (foldl openStream w ks).
Proof.
  revert w. induction ks as [|k ks IH]; intros w Hw; simpl; [exact Hw|].
  apply IH. destruct Hw as [Hwl Hws]. split; simpl.
  - eapply Forall_impl; [exact Hwl|]. intros [c l] [H1 H2]. split; [|exact H2].
    simpl in *. lia.
  - apply map_Forall_insert_2; [lia|].
    eapply map_Forall_impl; [exact Hws|]. simpl. intros. lia.
Qed.

Lemma attachEnds_fields kcs w :
  let w' := foldl (fun w kc => call_on kc.2 (onEnd kc.1) w) w kcs in
  listeners w' = listeners w ++ ((fun kc => (kc.2, onEnd kc.1)) <$> kcs) /\
  subscriptions w' = subscriptions w /\ promises w' = promises w /\
  nextCall w' = nextCall w /\ serviceName w' = serviceName w /\
  trace w' = trace w.
Proof.
  revert w. induction kcs as [|kc kcs IH]; intros w; simpl.
  - rewrite app_nil_r. repeat split.
  - destruct (IH (call_on kc.2 (onEnd kc.1) w)) as (H1 & H2 & H3 & H4 & H5 & H6).
    simpl in *. rewrite H1, <- app_assoc. repeat split; assumption.
Qed.

Lemma subscribe_wf w : wf w -> wf (subscribe w).
Proof.
  intros Hw. unfold subscribe.
  set (w2 := foldl openStream (effect InvokeSubscribe w) (streams (effect InvokeSubscribe w))).
  assert (Hw2 : wf w2) by (apply openStreams_wf, Hw).
  destruct (attachEnds_fields (map_to_list (subscriptions w2)) w2)
    as (Hl & Hs & Hp & Hn & _).
  destruct Hw2 as [Hwl Hws]. split.
  - rewrite Hl. apply Forall_app. split.
    + eapply Forall_impl; [exact Hwl|]. intros [c l] [H1 H2]. split.
      * rewrite Hn. exact H1.
      * destruct l; [exact I|]. simpl in *. rewrite Hp. exact H2.
    + apply Forall_fmap, Forall_forall. intros [k c] Hin.
      apply elem_of_map_to_list in Hin. split; [|exact I]. simpl.
      rewrite Hn. apply (Hws k c Hin).
  - rewrite Hs, Hn. exact Hws.
Qed.

Lemma count_occ_snoc (tr : list Effect) (e x : Effect) :
  count_occ Effect_eq_dec (tr ++ [e]) x
  = (count_occ Effect_eq_dec tr x + if decide (e = x) then 1 else 0)%nat.
Proof.
  rewrite count_occ_app. simpl.
  destruct (decide (e = x)), (Effect_eq_dec e x); try reflexivity; contradiction.
Qed.

Lemma run_listener_end_count key w l :
  endedEvents key (run_listener End w l)
  = (endedEvents key w + if decide (l = onEnd key) then 1 else 0)%nat.
Proof.
  destruct l as [k|k p].
  - unfold endedEvents. destruct (run_onEnd k w) as [_ Htr].
    destruct (run_listener_frame End w (onEnd k)) as (_ & _ & Hn & _).
    rewrite Htr, Hn, count_occ_snoc. f_equal.
    destruct (decide (k = key)) as [->|Hne].
    + rewrite !decide_True by reflexivity. reflexivity.
    + rewrite !decide_False by congruence. reflexivity.
  - change (run_listener End w (onStatus k p)) with w.
    rewrite decide_False by discriminate. lia.
Qed.

(** Counting the ended lines of one emission of [End]. *)
Lemma emission_end_count key ls w :
  let w' := foldl (run_listener End) w ls in
  endedEvents key w'
  = (endedEvents key w + length (filter (fun l => l = onEnd key) ls))%nat.
Proof.
  revert w. induction ls as [|l ls IH]; intros w; simpl; [lia|].
  rewrite IH, run_listener_end_count.
  destruct (decide (l = onEnd key)) as [->|Hne].
  - rewrite filter_cons_True by reflexivity. simpl. lia.
  - rewrite filter_cons_False by exact Hne. lia.
Qed.

Lemma emission_end_deletes key ls w :
  onEnd key ∈ ls -> subscriptions (foldl (run_listener End) w ls) !! key = None.
Proof.
  revert w. induction ls as [|l ls IH]; intros w Hin; [inversion Hin|]. simpl.
  apply elem_of_cons in Hin as [<-|Hin]; [|apply IH, Hin].
  apply emission_deleted. simpl. apply lookup_delete_eq.
Qed.

Lemma settle_ended key w : endedEvents key (settle w) = endedEvents key w.
Proof.
  unfold settle. destruct (awaiting w) as [futs|]; [|reflexivity].
  destruct (all_state w futs); try reflexivity.
  unfold finishDisconnect. destruct (service w) as [h|]; [|reflexivity].
  unfold endedEvents.
  change (count_occ Effect_eq_dec (trace w ++ [Close h])
            (Info (SubscriptionEnded (serviceName w) key))
          = count_occ Effect_eq_dec (trace w)
              (Info (SubscriptionEnded (serviceName w) key))).
  rewrite count_occ_snoc, decide_False by discriminate. lia.
Qed.

Lemma filter_absent {A} `{EqDecision A} (x : A) (l : list A) :
  x ∉ l -> filter (fun y => y = x) l = [].
Proof.
  induction l as [|y l IH]; [reflexivity|]. intros Hnin.
  apply not_elem_of_cons in Hnin as [Hne Hnin].
  rewrite filter_cons_False by congruence. apply IH, Hnin.
Qed.

Lemma count_in_NoDup {A} `{EqDecision A} (x : A) (l : list A) :
  NoDup l -> x ∈ l -> length (filter (fun y => y = x) l) = 1%nat.
Proof.
  induction 1 as [|y l Hnin Hnd IH]; [intros H'; inversion H'|].
  intros Hin. destruct (decide (y = x)) as [->|Hne].
  - rewrite filter_cons_True by reflexivity.
    rewrite filter_absent by exact Hnin. reflexivity.
  - rewrite filter_cons_False by exact Hne.
    apply IH. apply elem_of_cons in Hin as [->|Hin]; [contradiction | exact Hin].
Qed.

Lemma count_end_listeners key c (kcs : list (string * nat)) :
  length (filter (fun l => l = onEnd key)
            (filter (fun cl => cl.1 = c)
               ((fun kc => (kc.2, onEnd kc.1)) <$> kcs)).*2)
  = length (filter (fun kc => kc = (key, c)) kcs).
Proof.
  induction kcs as [|[k c'] kcs IH]; [reflexivity|].
  rewrite fmap_cons. cbn [fst snd].
  destruct (decide (c' = c)) as [->|Hc].
  - rewrite (filter_cons_True (fun cl => cl.1 = c)) by reflexivity.
    rewrite fmap_cons. cbn [snd].
    destruct (decide (k = key)) as [->|Hk].
    + rewrite !filter_cons_True by reflexivity. simpl. f_equal. exact IH.
    + rewrite !filter_cons_False by congruence. exact IH.
  - rewrite (filter_cons_False (fun cl => cl.1 = c)) by exact Hc.
    rewrite filter_cons_False by congruence. exact IH.
Qed.
Lemma filter_other_calls c (ls : list (nat * Listener)) :
  Forall (fun cl => cl.1 <> c) ls -> filter (fun cl => cl.1 = c) ls = [].
Proof.
  induction 1 as [|cl ls Hne _ IH]; [reflexivity|].
  rewrite filter_cons_False by exact Hne. exact IH.
Qed.

(** After [subscribe], a stream the subclass opened carries exactly one
    'end' listener for its key. *)
Lemma subscribe_end_listener key w :
  wf w -> key ∈ streams w ->
  exists c,
    subscriptions (subscribe w) !! key = Some c /\
    onEnd key ∈ listenersOf c (subscribe w) /\
    length (filter (fun l => l = onEnd key) (listenersOf c (subscribe w))) = 1%nat.
Proof.
  intros [Hwl _] Hin. unfold subscribe.
  set (w1 := effect InvokeSubscribe w).
  set (w2 := foldl openStream w1 (streams w1)).
  destruct (openStreams_lookup (streams w1) w1 key Hin) as (c & Hc & Hle).
  fold w2 in Hc.
  destruct (openStreams_frame (streams w1) w1) as (Hl2 & _). fold w2 in Hl2.
  destruct (attachEnds_fields (map_to_list (subscriptions w2)) w2)
    as (Hl & Hs & _).
  set (ws := foldl (fun w kc => call_on kc.2 (onEnd kc.1) w) w2
                   (map_to_list (subscriptions w2))) in *.
  assert (Hkc : (key, c) ∈ map_to_list (subscriptions w2))
    by (apply elem_of_map_to_list, Hc).
  assert (Hold : filter (fun cl => cl.1 = c) (listeners w) = []).
  { apply filter_other_calls. eapply Forall_impl; [exact Hwl|].
    intros cl [Hlt _]. simpl in Hle. lia. }
  exists c. split; [rewrite Hs; exact Hc|]. split.
  - apply elem_of_listenersOf. rewrite Hl. apply elem_of_app. right.
    apply list_elem_of_fmap. exists (key, c). split; [reflexivity | exact Hkc].
  - unfold listenersOf. rewrite Hl, Hl2. simpl listeners.
    rewrite filter_app, Hold, app_nil_l, count_end_listeners.
    apply count_in_NoDup; [apply NoDup_map_to_list | exact Hkc].
Qed.

(** C8. After [subscribe], for every stream the subclass registered: when
    the stream emits 'end', its entry is no longer in the registry and the
    log has gained exactly one "ended" line for its name. *)
Theorem natural_end_removes_entry key w :
  wf w -> key ∈ streams w ->
  exists c,
    subscriptions (subscribe w) !! key = Some c /\
    subscriptions (deliver (subscribe w) (c, End)) !! key = None /\
    endedEvents key (deliver (subscribe w) (c, End))
    = S (endedEvents key (subscribe w)).
Proof.
  intros Hw Hin.
  destruct (subscribe_end_listener key w Hw Hin) as (c & Hc & Hl & Hone).
  exists c. split; [exact Hc|]. split.
  - rewrite deliver_subscriptions. apply emission_end_deletes, Hl.
  - unfold deliver, emit. cbn [fst snd].
    rewrite settle_ended, emission_end_count, Hone. lia.
Qed.

Lemma natural_end_removes_entry_witness :
  let w := world_of (connect envReady sampleService) in
  exists c,
    subscriptions (subscribe w) !! "invoices" = Some c /\
    subscriptions (deliver (subscribe w) (c, End)) !! "invoices" = None /\
    endedEvents "invoices" (deliver (subscribe w) (c, End)) = 1%nat.
Proof.
  intros w.
  destruct (natural_end_removes_entry "invoices" w) as (c & Hc & Hgone & Hcount).
  - apply (bool_decide_unpack _); vm_compute; exact I.
  - apply (bool_decide_unpack _); vm_compute; exact I.
  - exists c. split; [exact Hc|]. split; [exact Hgone|].
    rewrite Hcount. vm_compute. reflexivity.
Defined.

(** ** Reachable worlds are well formed *)

Lemma wf_same_shape w w' :
  listeners w' = listeners w -> length (promises w') = length (promises w) ->
  nextCall w' = nextCall w -> subscriptions w' = subscriptions w ->
  wf w -> wf w'.
Proof.
  intros Hl Hp Hn Hs [Hwl Hws]. unfold wf, listener_ok. rewrite Hl, Hp, Hn, Hs.
  split; assumption.
Qed.

Lemma GrpcService_wf name cfg ss t : wf (GrpcService name cfg ss t).
Proof. split; [constructor | apply map_Forall_empty]. Qed.

Lemma connect_wf env w : wf w -> wf (world_of (connect env w)).
Proof.
  destruct (connect_untouched env w) as (_ & _ & Hs & _ & _ & Hl & Hp & Hn & _).
  apply wf_same_shape; congruence.
Qed.

Lemma finishDisconnect_wf w : wf w -> wf (finishDisconnect w).
Proof.
  destruct (finishDisconnect_fields w)
    as (_ & _ & _ & Hs & _ & _ & _ & Hl & Hp & Hn & _).
  apply wf_same_shape; congruence.
Qed.

Lemma unsubscribe_wf w : wf w -> wf (unsubscribe w).2.
Proof. intros Hw. apply cancelEach_wf, Hw. Qed.

Lemma disconnect_wf w : wf w -> wf (world_of (disconnect w)).
Proof.
  intros Hw. unfold disconnect.
  destruct (seek tDisconnect (fsm_state w)); [|exact Hw].
  destruct (fsm_pending w); [exact Hw|].
  pose proof (unsubscribe_wf
                (effect (Info (Disconnecting (serviceName w))) (set_fsm_pending true w))
                Hw) as Hw3.
  destruct (unsubscribe _) as [futs w3]. cbn [snd] in Hw3.
  destruct (all_state w3 futs); simpl.
  - exact Hw3.
  - apply finishDisconnect_wf, Hw3.
  - exact Hw3.
Qed.

Lemma run_listener_wf ev w l : wf w -> wf (run_listener ev w l).
Proof.
  intros [Hwl Hws].
  destruct (run_listener_frame ev w l) as (Hl & Hn & _ & _ & Hp).
  split.
  - unfold listener_ok. rewrite Hl, Hn, Hp. exact Hwl.
  - rewrite Hn. destruct (run_listener_subscriptions ev w l) as [->|[key ->]];
      [exact Hws | apply map_Forall_delete, Hws].
Qed.

Lemma settle_wf w : wf w -> wf (settle w).
Proof.
  destruct (settle_frame w) as (Hl & Hn & _ & Hp & Hs).
  apply wf_same_shape; congruence.
Qed.

Lemma deliver_wf w cev : wf w -> wf (deliver w cev).
Proof.
  intros Hw. apply settle_wf. unfold emit.
  generalize (listenersOf cev.1 w). intros ls. revert w Hw.
  induction ls as [|l ls IH]; intros w Hw; simpl; [exact Hw|].
  apply IH, run_listener_wf, Hw.
Qed.

Lemma subscribeAfterDelay_wf w : wf w -> wf (subscribeAfterDelay w).
Proof.
  intros Hw. unfold subscribeAfterDelay.
  destruct (is_ [connected] w); [apply subscribe_wf, Hw | exact Hw].
Qed.

Lemma advance_wf t w : wf w -> wf (advance t w).
Proof.
  intros Hw. unfold advance.
  generalize (filter (fun d => d ≤ t) (timers w)). intros due.
  assert (Hw1 : wf (set_timers (filter (fun d => ¬ d ≤ t) (timers w))
                      (set_now (Z.max (now w) t) w))) by exact Hw.
  revert Hw1. generalize (set_timers (filter (fun d => ¬ d ≤ t) (timers w))
                            (set_now (Z.max (now w) t) w)).
  induction due as [|d due IH]; intros w1 Hw1; simpl; [exact Hw1|].
  apply IH, subscribeAfterDelay_wf, Hw1.
Qed.

Lemma step_wf w w' : step w w' -> wf w -> wf w'.
Proof.
  destruct 1.
  - apply connect_wf.
  - apply disconnect_wf.
  - apply subscribe_wf.
  - apply unsubscribe_wf.
  - apply cancel_wf.
  - apply deliver_wf.
  - apply advance_wf.
Qed.

(** X16. Whatever an instance goes through after its construction, every
    listener sits on a stream that has been opened, every cancellation
    listener holds the [resolve] of a promise that has been created, and
    every stream of the registry has been opened. *)
Theorem reachable_wf w : reachable w -> wf w.
Proof.
  induction 1 as [|w w' _ IH Hstep]; [apply GrpcService_wf|].
  eapply step_wf; eassumption.
Qed.
Lemma all_state_pending w futs :
  Forall (fun f => future_state w f = Resolved \/ future_state w f = Pending) futs ->
  Exists (fun f => future_state w f = Pending) futs ->
  all_state w futs = Pending.
Proof.
  induction 1 as [|f futs Hf Hfs IH]; [intros H; inversion H|].
  intros Hex. simpl.
  assert (Hrest : all_state w futs = Resolved \/ all_state w futs = Pending).
  { clear -Hfs. induction Hfs as [|g gs Hg _ IHg]; [left; reflexivity|].
    simpl. destruct Hg as [->| ->], IHg as [->| ->]; auto. }
  apply Exists_cons in Hex as [Hp|Hex].
  - rewrite Hp. destruct Hrest as [->| ->]; reflexivity.
  - rewrite (IH Hex). destruct Hf as [->| ->]; reflexivity.
Qed.

Lemma unsubscribe_pending_without_confirmation key c w evs :
  wf w -> subscriptions w !! key = Some c ->
  (c, Status status.CANCELLED) ∉ evs ->
  all_state (run_events evs (unsubscribe w).2) (unsubscribe w).1 = Pending.
Proof.
  intros Hw Hk Hnin. destruct (unsubscribe_spec w Hw) as (_ & _ & Ha).
  assert (Hin : (key, c) ∈ map_to_list (subscriptions w))
    by (apply elem_of_map_to_list, Hk).
  set (kcs := map_to_list (subscriptions w)) in *. clearbody kcs.
  destruct (unsubscribe w) as [futs w1]. cbn [fst snd] in *.
  apply all_state_pending.
  - clear Hin. induction Ha as [|kc fut kcs futs Hkc _ IH]; constructor; [|exact IH].
    destruct (awaitsConfirmation_run _ _ _ _ evs Hkc) as (H1 & H2 & _).
    destruct (decide ((kc.2, Status status.CANCELLED) ∈ evs)) as [Hev|Hev].
    + left. apply H1, Hev.
    + right. apply H2, Hev.
  - induction Ha as [|kc fut kcs futs Hkc _ IH]; [inversion Hin|].
    apply elem_of_cons in Hin as [<-|Hin].
    + left. apply (awaitsConfirmation_run _ _ _ _ evs Hkc), Hnin.
    + right. apply IH, Hin.
Qed.

(** ** A stream that ends while its cancellation is in flight (C9) *)

(** C9 (amended). While the cancellation of a registered stream is in
    flight, as long as the stream has not reported the cancellation code,
    whatever else it reports (another final status, its end), no failure is
    raised but nothing resolves either: the future of [_cancelSubscription]
    for it, and the future of an [unsubscribe] that covers it, stay
    pending. *)
Theorem cancel_pending_without_confirmation key c w evs :
  wf w -> subscriptions w !! key = Some c ->
  (c, Status status.CANCELLED) ∉ evs ->
  (let (fut, w1) := _cancelSubscription key w in
   future_state (run_events evs w1) fut = Pending) /\
  (let (futs, w1) := unsubscribe w in
   all_state (run_events evs w1) futs = Pending).
Proof.
  intros Hw Hk Hnin. split.
  - destruct (cancel_registered_spec key c w Hw Hk) as (_ & _ & Ha).
    destruct (_cancelSubscription key w) as [fut w1]. cbn [fst snd] in Ha.
    apply (awaitsConfirmation_run _ _ _ _ evs Ha), Hnin.
  - pose proof (unsubscribe_pending_without_confirmation key c w evs Hw Hk Hnin) as H.
    destruct (unsubscribe w) as [futs w1]. exact H.
Qed.

Lemma cancel_pending_without_confirmation_witness :
  let evs := [(0%nat, Status status.OK); (0%nat, End)] in
  (let (fut, w1) := _cancelSubscription "invoices" sampleSubscribed in
   future_state (run_events evs w1) fut = Pending) /\
  (let (futs, w1) := unsubscribe sampleSubscribed in
   all_state (run_events evs w1) futs = Pending).
Proof.
  apply (cancel_pending_without_confirmation "invoices" 0%nat sampleSubscribed
           [(0%nat, Status status.OK); (0%nat, End)]).
  - apply (bool_decide_unpack _); vm_compute; exact I.
  - vm_compute. reflexivity.
  - apply (bool_decide_unpack _); vm_compute; exact I.
Defined.

(** C9 as stated fails: "invoices" is registered as stream 0; its
    cancellation is requested, then the stream reports the final status OK
    and ends. The future of [_cancelSubscription] is not resolved, and the
    disconnect waiting for it has not completed. *)
Lemma natural_end_leaves_cancellation_pending :
  let evs := [(0%nat, Status status.OK); (0%nat, End)] in
  (let (fut, w1) := _cancelSubscription "invoices" sampleSubscribed in
   future_state (run_events evs w1) fut <> Resolved) /\
  (let (futs, w1) := unsubscribe sampleSubscribed in
   all_state (run_events evs w1) futs <> Resolved) /\
  fsm_pending (run_events evs (world_of (disconnect sampleSubscribed))) = true.
Proof. vm_compute. repeat split; discriminate. Qed.
(** ** A connection attempt that succeeds *)

Lemma establishConnection_succeeds env useMac waitMac w v :
  latestProtoVersion env = Ok v ->
  loadResult env = None -> sslCredsResult env = None ->
  (useMac = true ->
   (waitMac = true -> waitForFileResult env = None) /\
   macaroonCredsResult env = None) ->
  waitForReadyResult env (getDeadline 10 (now w)) = None ->
  let r := establishConnection env None useMac waitMac w in
  let h := length (clients w) in
  r.1 = Ok tt /\
  service r.2 = Some h /\
  clients r.2 = clients w ++ [true] /\
  trace r.2 = trace w ++ effectsBeforeProbe w v useMac waitMac
                      ++ effectsOfReadyProbe w useMac h /\
  untouched w r.2.
Proof.
  intros Hv Hload Hssl Hmac Hprobe.
  split; [|split; [|split; [|split]]]; [| | | |apply establishConnection_untouched].
  all: unfold establishConnection, mbind, M_bind.
  all: rewrite step_get; cbv beta zeta.
  all: rewrite (step_latest_ok _ _ _ _ _ Hv); run_steps.
  all: rewrite (step_await_ok _ _ _ Hload); run_steps.
  all: rewrite (step_await_ok _ _ _ Hssl).
  all: destruct useMac;
    [destruct (Hmac eq_refl) as [Hwait Hcreds]; destruct waitMac;
       [run_steps; rewrite (step_await_ok _ _ _ (Hwait eq_refl))|];
       run_steps; rewrite (step_await_ok _ _ _ Hcreds)|];
    run_steps; rewrite probe_succeeds by exact Hprobe;
    cbn [fst snd]; unfold effectsBeforeProbe, effectsOfReadyProbe; simpl;
    rewrite <- ?app_assoc; reflexivity.
Qed.

(** X1. A connect from [ready] whose every awaited step succeeds, the probe
    included: the transition completes in [connected] with nothing in
    flight, [this.service] is a new handle, open, no other handle changes,
    the registry is untouched, [subscribe] has not been invoked yet, and one
    timer is set for 2000 ms from now. The effects are, in order: the log
    line, the steps before the probe, the client and its probe, the timer,
    the log line. *)
Theorem connect_succeeds env w :
  fsm_state w = ready -> fsm_pending w = false ->
  reachesProbe env (cs_useMacaroon (_getConnectionSettings w))
                   (cs_waitForMacaroon (_getConnectionSettings w)) ->
  waitForReadyResult env (getDeadline 10 (now w)) = None ->
  exists w' v,
    connect env w = Done w' /\
    latestProtoVersion env = Ok v /\
    fsm_state w' = connected /\ fsm_pending w' = false /\
    service w' = Some (length (clients w)) /\
    clients w' = clients w ++ [true] /\
    subscriptions w' = subscriptions w /\
    subscribeCalls w' = subscribeCalls w /\
    timers w' = timers w ++ [now w + 2000] /\
    trace w' = trace w ++ [Info (Connecting (serviceName w))]
               ++ effectsBeforeProbe w v (cs_useMacaroon (_getConnectionSettings w))
                    (cs_waitForMacaroon (_getConnectionSettings w))
               ++ effectsOfReadyProbe w (cs_useMacaroon (_getConnectionSettings w))
                    (length (clients w))
               ++ [SetTimeout (now w + 2000); Info (ConnectedTo (serviceName w))].
Proof.
  intros Hs Hp (Hv & Hload & Hssl & Hmac) Hprobe. destruct Hv as [v Hv].
  pose proof (connect_outcome env w Hs Hp) as Hout.
  rewrite onBeforeConnect_unfold in Hout.
  set (w0 := effect (Info (Connecting (serviceName (set_fsm_pending true w))))
               (set_fsm_pending true w)) in Hout.
  destruct (establishConnection_succeeds env _ _ w0 v Hv Hload Hssl Hmac Hprobe)
    as (Hok & Hsvc & Hcl & Htr & Hu).
  destruct (establishConnection env None _ _ w0) as [r w1].
  cbn [fst snd] in *. subst r.
  unfold untouched in Hu. simpl in Hu, Hsvc, Hcl.
  destruct Hu as (Hn & ? & ? & ? & ? & ? & ? & Hnow & Htim & ? & ? & ? & ?).
  destruct (connect_done env w _ Hout) as (_ & _ & _ & _ & _ & _ & _ & _ & _ & _ & _ & _ & _ & Hcalls).
  eexists _, v. split; [exact Hout|]. split; [exact Hv|].
  split; [reflexivity|]. split; [reflexivity|]. split; [exact Hsvc|].
  split; [exact Hcl|]. split; [assumption|]. split; [exact Hcalls|].
  split.
  - simpl. rewrite Htim, Hnow. reflexivity.
  - change (trace (set_fsm_pending false (onAfterConnect (set_fsm_state connected w1))))
      with ((trace w1 ++ [SetTimeout (now w1 + 2000)])
            ++ [Info (ConnectedTo (serviceName w1))]).
    rewrite Htr, Hnow, Hn.
    change (trace w0) with (trace w ++ [Info (Connecting (serviceName w))]).
    rewrite <- !app_assoc. reflexivity.
Qed.

Lemma connect_succeeds_witness :
  exists w', connect envReady sampleService = Done w' /\
             fsm_state w' = connected /\ service w' = Some 0%nat /\
             clients w' = [true] /\ timers w' = [2000].
Proof.
  destruct (connect_succeeds envReady sampleService) as (w' & v & H).
  - reflexivity.
  - reflexivity.
  - split; [exists "0.9.0"; reflexivity|]. repeat split; reflexivity.
  - reflexivity.
  - exists w'. destruct H as (Hc & _ & Hs & _ & Hsvc & Hcl & _ & _ & Htim & _).
    repeat split; assumption.
Defined.
(** ** What any connection attempt does to the handles *)

Lemma sameClients_refl w : sameClients w w.
Proof. split; reflexivity. Qed.

Lemma sameClients_trans w1 w2 w3 :
  sameClients w1 w2 -> sameClients w2 w3 -> sameClients w1 w3.
Proof. intros [H1 H2] [H3 H4]. split; congruence. Qed.

Lemma sameClients_emit e : preserves sameClients (emit_effect e).
Proof. intros w. split; reflexivity. Qed.

Lemma sameClients_await o : preserves sameClients (await o).
Proof. apply preserves_await, sameClients_refl. Qed.

Lemma sameClients_bind {A B} (m : M A) (k : A -> M B) :
  preserves sameClients m -> (forall a, preserves sameClients (k a)) ->
  preserves sameClients (bind m k).
Proof.
  intros Hm Hk. apply (preserves_bind sameClients sameClients_trans); assumption.
Qed.

(** A failure among steps that keep the handles leaves the attempt with
    nothing to release. *)
Lemma attempt_bind {A} (m : M A) (k : A -> M unit) w :
  preserves sameClients m ->
  (forall a w1, sameClients w w1 -> clientsAfterAttempt w1 (k a w1).1 (k a w1).2) ->
  clientsAfterAttempt w (bind m k w).1 (bind m k w).2.
Proof.
  intros Hm Hk. unfold bind. specialize (Hm w).
  destruct (m w) as [[a|e] w1]; cbn [fst snd] in *.
  - specialize (Hk a w1 Hm). destruct Hm as [Hc Hs].
    unfold clientsAfterAttempt, sameClients in *. rewrite <- Hc, <- Hs. exact Hk.
  - left. exact Hm.
Qed.

(** The client and its probe. *)
Lemma createAndProbe_clients env useMac svc w :
  let r := bind (newClient useMac) (fun h =>
             bind (modify (set_service (Some h))) (fun _ =>
               try_catch
                 (bind get (fun w' =>
                    bind (emit_effect (WaitForReady h (getDeadline 10 (now w'))))
                         (fun _ => await (waitForReadyResult env
                                            (getDeadline 10 (now w'))))))
                 (fun e => bind (emit_effect (Warn (UnableToConnect svc e)))
                             (fun _ => bind (modify (close h)) (fun _ => throw e)))))
             w in
  clientsAfterAttempt w r.1 r.2.
Proof.
  cbv zeta. rewrite step_newClient, step_modify.
  match goal with
  | |- context [try_catch _ _ ?x] =>
    destruct (waitForReadyResult env (getDeadline 10 (now x))) as [e|] eqn:Hprobe;
      [rewrite (probe_fails _ _ _ e) by exact Hprobe
      |rewrite probe_succeeds by exact Hprobe]
  end; cbn [fst snd].
  - right. unfold close. simpl. rewrite insert_last. split; reflexivity.
  - simpl. split; reflexivity.
Qed.

Lemma establishConnection_clients env version useMac waitMac w :
  let r := establishConnection env version useMac waitMac w in
  clientsAfterAttempt w r.1 r.2.
Proof.
  cbv zeta. unfold establishConnection, mbind, M_bind.
  rewrite step_get. cbv beta zeta.
  apply attempt_bind.
  { destruct version as [v|]; [case_bool_decide|];
      first [ apply preserves_ret, sameClients_refl
            | intros w0; split; reflexivity ]. }
  intros v w1 _.
  do 5 (apply attempt_bind; [first [apply sameClients_emit | apply sameClients_await]|];
        intros _ ? _).
  apply attempt_bind; [|intros _ ? _; apply createAndProbe_clients].
  destruct useMac; [|apply preserves_ret, sameClients_refl].
  repeat (apply sameClients_bind; [|intros ?]);
    try apply sameClients_emit; try apply sameClients_await.
  destruct waitMac; [|apply preserves_ret, sameClients_refl].
  apply sameClients_bind; [apply sameClients_emit | intros ?; apply sameClients_await].
Qed.

Lemma isOpen_closed_last (l : list bool) (h : nat) :
  (l ++ [false]) !! h = Some true <-> l !! h = Some true.
Proof. apply isOpen_after_failed_probe. Qed.

(** X2. A connect that got past the guard and failed, at whatever step: the
    state is [ready] with nothing in flight, so that it can be requested
    again; the registry, the timers and the count of [subscribe] calls are
    untouched, and the handles open afterwards are those that were open
    before. *)
Theorem failed_connect_leaves_nothing_behind env w e w' :
  fsm_state w = ready -> fsm_pending w = false ->
  connect env w = Failed e w' ->
  fsm_state w' = ready /\ fsm_pending w' = false /\
  subscriptions w' = subscriptions w /\ timers w' = timers w /\
  subscribeCalls w' = subscribeCalls w /\
  (forall h, isOpen w' h <-> isOpen w h).
Proof.
  intros Hs Hp. rewrite (connect_outcome env w Hs Hp).
  pose proof (onBeforeConnect_untouched env (set_fsm_pending true w)) as Hu.
  assert (Hc : subscribeCalls (onBeforeConnect env (set_fsm_pending true w)).2
               = subscribeCalls w).
  { rewrite onBeforeConnect_unfold, establishConnection_subscribeCalls.
    rewrite subscribeCalls_effect by discriminate. reflexivity. }
  assert (Hcl : clientsAfterAttempt w (onBeforeConnect env (set_fsm_pending true w)).1
                  (onBeforeConnect env (set_fsm_pending true w)).2).
  { rewrite onBeforeConnect_unfold.
    exact (establishConnection_clients env None _ _
             (effect (Info (Connecting (serviceName w))) (set_fsm_pending true w))). }
  destruct (onBeforeConnect env (set_fsm_pending true w)) as [[[]|e1] w1];
    [discriminate|].
  intros [= <- <-]. cbn [fst snd] in *.
  unfold untouched in Hu. simpl in Hu.
  destruct Hu as (_ & _ & Hst & _ & Hsub & _ & _ & _ & Htim & _).
  split; [simpl; congruence|]. split; [reflexivity|].
  split; [exact Hsub|]. split; [exact Htim|]. split; [exact Hc|].
  intros h. unfold isOpen. simpl.
  destruct Hcl as [[-> _]|[-> _]]; [reflexivity | apply isOpen_closed_last].
Qed.

Lemma failed_connect_leaves_nothing_behind_witness :
  exists e w', connect envUnreachable sampleService = Failed e w' /\
               fsm_state w' = ready /\ timers w' = [] /\
               (forall h, isOpen w' h <-> isOpen sampleService h).
Proof.
  eexists _, _. split; [vm_compute; reflexivity|].
  destruct (failed_connect_leaves_nothing_behind envUnreachable sampleService
              _ _ eq_refl eq_refl eq_refl) as (Hs & _ & _ & Ht & _ & Ho).
  split; [exact Hs|]. split; [exact Ht | exact Ho].
Defined.
(** ** Which steps a connection attempt takes *)

Section Steps.
Variable R : World -> World -> Prop.
Hypothesis R_refl : forall w, R w w.
Hypothesis R_trans : forall w1 w2 w3, R w1 w2 -> R w2 w3 -> R w1 w3.
Variable P : Effect -> Prop.
Hypothesis R_effect : forall e w, P e -> R w (effect e w).
Hypothesis R_set_clients : forall v w, R w (set_clients v w).
Hypothesis R_set_service : forall v w, R w (set_service v w).

Ltac side_conditions :=
  first [ reflexivity
        | intros Hflag; first [ discriminate Hflag
                              | rewrite ?Hflag; reflexivity ] ].

Ltac steps_rule HP :=
  first [ apply (preserves_ret R R_refl)
        | apply (preserves_throw R R_refl)
        | apply (preserves_get R R_refl)
        | apply (preserves_await R R_refl)
        | apply (preserves_emit_effect R P R_effect); apply HP; side_conditions
        | apply (preserves_newClient R R_trans P R_effect R_set_clients);
          intros; apply HP; side_conditions
        | apply (preserves_close R R_trans P R_effect R_set_clients);
          apply HP; side_conditions
        | apply preserves_modify; intros; apply R_set_service
        | apply (preserves_bind R R_trans); [|intros ?]
        | apply (preserves_try_catch R R_trans); [|intros ?] ].

(** A connection attempt keeps [R] as soon as the effects of the steps it
    takes with these options do: no macaroon step without [useMac], no wait
    for the file unless both flags are set, no lookup of the latest version
    when a version is given. *)
Lemma preserves_establishConnection_steps env version useMac waitMac :
  (forall e, connectionEffect e = true ->
             (useMac = false -> usesMacaroon e = false) ->
             (useMac && waitMac = false -> isWaitForFile e = false) ->
             (hasVersion version = true -> isVersionLookup e = false) ->
             P e) ->
  preserves R (establishConnection env version useMac waitMac).
Proof.
  intros HP. unfold establishConnection, mbind, M_bind.
  apply (preserves_bind R R_trans); [apply (preserves_get R R_refl)|intros w].
  cbv zeta.
  apply (preserves_bind R R_trans); [|intros v].
  { destruct version as [v|]; [simpl in HP; case_bool_decide|];
      first [ apply (preserves_ret R R_refl)
            | apply (preserves_getLatestProtoVersion R P R_effect);
              apply HP; side_conditions ]. }
  do 5 (apply (preserves_bind R R_trans); [steps_rule HP|intros _]).
  apply (preserves_bind R R_trans); [|intros _; repeat steps_rule HP].
  destruct useMac; [|apply (preserves_ret R R_refl)].
  apply (preserves_bind R R_trans); [|intros _; repeat steps_rule HP].
  destruct waitMac; [|apply (preserves_ret R R_refl)].
  repeat steps_rule HP.
Qed.
End Steps.

(** The effects of a trace that satisfy [f]. *)
Lemma filter_effect f e w :
  f e = false -> List.filter f (trace (effect e w)) = List.filter f (trace w).
Proof.
  intros He. unfold effect. simpl. rewrite List.filter_app. simpl. rewrite He.
  apply app_nil_r.
Qed.

Lemma establishConnection_filter f env version useMac waitMac w :
  (forall e, connectionEffect e = true ->
             (useMac = false -> usesMacaroon e = false) ->
             (useMac && waitMac = false -> isWaitForFile e = false) ->
             (hasVersion version = true -> isVersionLookup e = false) ->
             f e = false) ->
  List.filter f (trace (establishConnection env version useMac waitMac w).2)
  = List.filter f (trace w).
Proof.
  intros Hf.
  apply (preserves_establishConnection_steps
           (fun w w' => List.filter f (trace w') = List.filter f (trace w))
           (fun w => eq_refl) (fun w1 w2 w3 H1 H2 => eq_trans H2 H1)
           (fun e => f e = false)); try reflexivity.
  - intros e w0. apply filter_effect.
  - exact Hf.
Qed.

Lemma connect_filter f env w :
  f (Info (Connecting (serviceName w))) = false ->
  f (SetTimeout (now w + 2000)) = false ->
  f (Info (ConnectedTo (serviceName w))) = false ->
  (forall e, connectionEffect e = true ->
             (cs_useMacaroon (_getConnectionSettings w) = false ->
              usesMacaroon e = false) ->
             (cs_useMacaroon (_getConnectionSettings w)
              && cs_waitForMacaroon (_getConnectionSettings w) = false ->
              isWaitForFile e = false) ->
             f e = false) ->
  List.filter f (trace (world_of (connect env w))) = List.filter f (trace w).
Proof.
  intros H1 H2 H3 Hf. unfold connect.
  destruct (seek tConnect (fsm_state w)); [|reflexivity].
  destruct (fsm_pending w); [reflexivity|].
  pose proof (onBeforeConnect_untouched env (set_fsm_pending true w)) as Hu.
  assert (Hb : List.filter f (trace (onBeforeConnect env (set_fsm_pending true w)).2)
               = List.filter f (trace w)).
  { rewrite onBeforeConnect_unfold, establishConnection_filter.
    - apply (filter_effect f _ (set_fsm_pending true w)), H1.
    - intros e He Hm Hw _. apply Hf; assumption. }
  destruct (onBeforeConnect env (set_fsm_pending true w)) as [[[]|e] w1];
    cbn [fst snd world_of] in *; [|exact Hb].
  destruct Hu as (Hn & _ & _ & _ & _ & _ & _ & Hnow & _).
  change (trace (set_fsm_pending false (onAfterConnect (set_fsm_state l w1))))
    with ((trace w1 ++ [SetTimeout (now w1 + 2000)])
          ++ [Info (ConnectedTo (serviceName w1))]).
  simpl in Hn, Hnow. rewrite Hn, Hnow, !List.filter_app. simpl.
  rewrite H2, H3, !app_nil_r. exact Hb.
Qed.

(** X3. For the temporary instance (identifier "tmp"), whatever its type
    ("local" included), the instance flag and the outside: a connect waits
    for no macaroon file, builds and combines no macaroon credentials, and
    creates no client that carries them. *)
Theorem tmp_instance_connects_without_macaroon env w :
  id (lndConfig w) = "tmp" ->
  macaroonEffects (world_of (connect env w)) = macaroonEffects w.
Proof.
  intros Hid.
  assert (Huse : cs_useMacaroon (_getConnectionSettings w) = false).
  { rewrite settings_useMacaroon, Hid.
    rewrite bool_decide_eq_true_2 by reflexivity. apply andb_false_r. }
  apply connect_filter; try reflexivity.
  intros e _ Hm _. apply Hm, Huse.
Qed.

Lemma tmp_instance_connects_without_macaroon_witness :
  let w := GrpcService "WalletUnlocker" tmpConfig [] 0 in
  type (lndConfig w) = "local" /\
  macaroonEffects (world_of (connect envReady w)) = [].
Proof.
  intros w. split; [reflexivity|].
  apply (tmp_instance_connects_without_macaroon envReady w). reflexivity.
Defined.

(** X4. An instance whose type is not "local" never waits for the macaroon
    file when it connects, whatever else its configuration says. *)
Theorem remote_instance_never_waits_for_macaroon env w :
  type (lndConfig w) <> "local" ->
  List.filter isWaitForFile (trace (world_of (connect env w)))
  = List.filter isWaitForFile (trace w).
Proof.
  intros Htype.
  assert (Hwait : cs_waitForMacaroon (_getConnectionSettings w) = false).
  { rewrite settings_waitForMacaroon. apply bool_decide_eq_false_2, Htype. }
  apply connect_filter; try reflexivity.
  intros e _ _ Hw. apply Hw. rewrite Hwait. apply andb_false_r.
Qed.

Lemma remote_instance_never_waits_for_macaroon_witness :
  let cfg := {| host := "node.example:10009"; cert := "tls.cert";
                macaroon := "admin.macaroon"; protoPath := "proto";
                id := "wallet-2"; type := "custom" |} in
  let w := GrpcService "Lightning" cfg [] 0 in
  List.filter isWaitForFile (trace (world_of (connect envReady w))) = [] /\
  macaroonEffects (world_of (connect envReady w)) <> [].
Proof.
  intros cfg w. split.
  - apply (remote_instance_never_waits_for_macaroon envReady w). discriminate.
  - vm_compute. discriminate.
Defined.

(** X5. Given a non-empty [options.version], [establishConnection] never
    asks for the latest proto version. *)
Theorem given_version_is_not_looked_up env v useMac waitMac w :
  v <> "" ->
  List.filter isVersionLookup
    (trace (establishConnection env (Some v) useMac waitMac w).2)
  = List.filter isVersionLookup (trace w).
Proof.
  intros Hv. apply establishConnection_filter.
  intros e _ _ _ Hver. apply Hver. simpl.
  rewrite bool_decide_eq_false_2 by exact Hv. reflexivity.
Qed.

Lemma given_version_is_not_looked_up_witness :
  List.filter isVersionLookup
    (trace (establishConnection envReady (Some "0.8.0") true true sampleService).2)
  = [] /\
  List.filter isVersionLookup
    (trace (establishConnection envReady (Some "") true true sampleService).2)
  = [GetLatestProtoVersion "proto"].
Proof.
  split.
  - apply (given_version_is_not_looked_up envReady "0.8.0" true true sampleService).
    discriminate.
  - vm_compute. reflexivity.
Defined.
(** ** A disconnect parked on its confirmations *)

Lemma sameConnection_refl w : sameConnection w w.
Proof. repeat split. Qed.

Lemma sameConnection_trans w1 w2 w3 :
  sameConnection w1 w2 -> sameConnection w2 w3 -> sameConnection w1 w3.
Proof. unfold sameConnection. intros H1 H2. intuition congruence. Qed.

Lemma run_listener_sameConnection ev w l : sameConnection w (run_listener ev w l).
Proof.
  destruct l as [key|key p], ev as [|code]; simpl; try (repeat split; fail).
  case_bool_decide; [|repeat split].
  unfold resolve. simpl. destruct (promises w !! p) as [[| |e]|]; repeat split.
Qed.

Lemma emit_sameConnection c ev w : sameConnection w (emit c ev w).
Proof.
  unfold emit. generalize (listenersOf c w). intros ls. revert w.
  induction ls as [|l ls IH]; intros w; simpl; [apply sameConnection_refl|].
  eapply sameConnection_trans; [apply run_listener_sameConnection | apply IH].
Qed.

Lemma all_state_ext w w' futs :
  promises w' = promises w -> all_state w' futs = all_state w futs.
Proof.
  intros Hp. induction futs as [|f futs IH]; [reflexivity|]. simpl. rewrite IH.
  destruct f; simpl; rewrite ?Hp; reflexivity.
Qed.

Lemma all_state_stays_resolved w w' futs :
  (forall p, promises w !! p = Some Resolved -> promises w' !! p = Some Resolved) ->
  Forall (fun f => exists p, f = OnPromise p /\ is_Some (promises w !! p)) futs ->
  all_state w futs = Resolved -> all_state w' futs = Resolved.
Proof.
  intros Hmono Hfuts. rewrite !all_state_resolved.
  induction Hfuts as [|f futs (p & -> & [s Hs]) _ IH]; [constructor|].
  rewrite !Forall_cons. intros [Hf Hrest]. split; [|apply IH, Hrest].
  simpl in *. rewrite Hs in Hf. simpl in Hf. subst s.
  rewrite (Hmono p Hs). reflexivity.
Qed.

(** Futures of cancellations are resolved or pending, never rejected. *)
Lemma cancellations_never_fail w kcs futs evs :
  Forall2 (fun kc fut => awaitsConfirmation w kc.1 kc.2 fut) kcs futs ->
  all_state (run_events evs w) futs = Resolved \/
  all_state (run_events evs w) futs = Pending.
Proof.
  induction 1 as [|kc fut kcs futs Ha _ IH]; [left; reflexivity|]. simpl.
  destruct (awaitsConfirmation_run _ _ _ _ evs Ha) as (H1 & H2 & _).
  destruct (decide ((kc.2, Status status.CANCELLED) ∈ evs)) as [Hev|Hev].
  - rewrite (proj2 H1 Hev). destruct IH as [-> | ->]; auto.
  - rewrite (H2 Hev). destruct IH as [-> | ->]; auto.
Qed.

Lemma awaited_promises_exist w kcs futs :
  Forall2 (fun kc fut => awaitsConfirmation w kc.1 kc.2 fut) kcs futs ->
  Forall (fun f => exists p, f = OnPromise p /\ is_Some (promises w !! p)) futs.
Proof.
  induction 1 as [|kc fut kcs futs (p & -> & Hp & _) _ IH]; constructor; [|exact IH].
  exists p. split; [reflexivity | eexists; exact Hp].
Qed.
Lemma finishDisconnect_connection w :
  let w' := finishDisconnect w in
  fsm_state w' = ready /\ fsm_pending w' = false /\ awaiting w' = None /\
  service w' = service w /\ clients w' = closedService w /\
  promises w' = promises w /\ subscriptions w' = subscriptions w.
Proof.
  unfold finishDisconnect, closedService.
  destruct (service w) as [h|] eqn:Hs; simpl; rewrite ?Hs; repeat split.
Qed.

(** Where a parked disconnect stands after some stream events: still
    parked, in [connected] with its handle as it was, while its futures are
    pending; or over, in [ready] with the handle closed, once they are all
    resolved. *)
Lemma teardown_progress w0 kcs futs evs :
  awaiting w0 = Some futs -> fsm_state w0 = connected -> fsm_pending w0 = true ->
  Forall2 (fun kc fut => awaitsConfirmation w0 kc.1 kc.2 fut) kcs futs ->
  all_state w0 futs = Pending ->
  let x := run_events evs w0 in
  (all_state x futs = Pending /\ awaiting x = Some futs /\
   fsm_state x = connected /\ fsm_pending x = true /\
   service x = service w0 /\ clients x = clients w0) \/
  (all_state x futs = Resolved /\ awaiting x = None /\
   fsm_state x = ready /\ fsm_pending x = false /\
   service x = service w0 /\ clients x = closedService w0).
Proof.
  intros Haw Hst Hpend Ha Hstart. cbv zeta.
  induction evs as [|cev evs IH] using rev_ind.
  { left. repeat split; assumption. }
  rewrite run_events_snoc.
  set (x := run_events evs w0) in *.
  pose proof (cancellations_never_fail w0 kcs futs (evs ++ [cev]) Ha) as Hnext.
  rewrite run_events_snoc in Hnext. fold x in Hnext.
  unfold deliver in *.
  set (y := emit cev.1 cev.2 x) in *.
  destruct (settle_frame y) as (_ & _ & _ & Hpy & _).
  rewrite (all_state_ext y (settle y) futs Hpy) in Hnext.
  destruct (emit_sameConnection cev.1 cev.2 x) as (Ys & Yp & Ysvc & Ycl & Yaw & _).
  fold y in Ys, Yp, Ysvc, Ycl, Yaw.
  destruct IH as [(Hx & Hxa & Hxs & Hxp & Hxsvc & Hxcl)
                 |(Hx & Hxa & Hxs & Hxp & Hxsvc & Hxcl)].
  - unfold settle. rewrite Yaw, Hxa.
    destruct Hnext as [Hres|Hpen]; rewrite ?Hres, ?Hpen.
    + right. destruct (finishDisconnect_connection y) as (F1 & F2 & F3 & F4 & F5 & F6 & _).
      rewrite (all_state_ext y _ futs F6).
      split; [exact Hres|]. split; [exact F3|]. split; [exact F1|].
      split; [exact F2|]. split; [congruence|].
      rewrite F5. unfold closedService. rewrite Ysvc, Ycl, Hxsvc, Hxcl. reflexivity.
    + left. repeat split; congruence.
  - right. unfold settle. rewrite Yaw, Hxa.
    split; [|repeat split; congruence].
    apply (all_state_stays_resolved x y futs); [| |exact Hx].
    + intros p Hp. apply emission_settled; [exact Hp | discriminate].
    + pose proof (awaited_promises_exist w0 kcs futs Ha) as Hex.
      eapply Forall_impl; [exact Hex|]. intros f (p & -> & Hp).
      exists p. split; [reflexivity|].
      apply lookup_lt_is_Some. apply lookup_lt_is_Some in Hp.
      destruct (run_events_frame evs w0) as (_ & _ & _ & Hlen). fold x in Hlen. lia.
Qed.

Lemma pending_until_confirmed w kcs futs evs key c :
  Forall2 (fun kc fut => awaitsConfirmation w kc.1 kc.2 fut) kcs futs ->
  (key, c) ∈ kcs -> (c, Status status.CANCELLED) ∉ evs ->
  all_state (run_events evs w) futs = Pending.
Proof.
  intros Ha Hin Hnin.
  destruct (cancellations_never_fail w kcs futs evs Ha) as [Hres|Hpen]; [|exact Hpen].
  apply all_state_resolved in Hres. apply (all_confirmed _ _ _ evs Ha) in Hres.
  rewrite Forall_forall in Hres. specialize (Hres _ Hin). contradiction.
Qed.



(** How [disconnect] leaves a connected, idle instance: over at once, or
    parked on the futures of [unsubscribe]. *)
Lemma disconnect_from_connected w :
  wf w -> fsm_state w = connected -> fsm_pending w = false ->
  exists futs w3,
    unsubscribe (effect (Info (Disconnecting (serviceName w))) (set_fsm_pending true w))
    = (futs, w3) /\
    sameInstance (set_fsm_pending true w) w3 /\
    Forall2 (fun kc fut => awaitsConfirmation w3 kc.1 kc.2 fut)
            (map_to_list (subscriptions w)) futs /\
    ((all_state w3 futs = Resolved /\ disconnect w = Done (finishDisconnect w3)) \/
     (all_state w3 futs = Pending /\
      disconnect w = Suspended (set_awaiting (Some futs) w3))).
Proof.
  intros Hw Hs Hp.
  set (w1 := effect (Info (Disconnecting (serviceName w))) (set_fsm_pending true w)).
  destruct (unsubscribe_spec w1 Hw) as (_ & _ & Ha).
  pose proof (unsubscribe_sameInstance w1) as Hsame.
  assert (Hd : disconnect w
               = let (futs, w3) := unsubscribe w1 in
                 match all_state w3 futs with
                 | Resolved => Done (finishDisconnect w3)
                 | RejectedWith e => Failed e (set_fsm_pending false w3)
                 | Pending => Suspended (set_awaiting (Some futs) w3)
                 end).
  { unfold disconnect. rewrite Hs, Hp. reflexivity. }
  destruct (unsubscribe w1) as [futs w3]. cbn [fst snd] in *.
  exists futs, w3. split; [reflexivity|]. split; [exact Hsame|]. split; [exact Ha|].
  destruct (cancellations_never_fail w3 _ futs [] Ha) as [Hr|Hr];
    cbn [run_events foldl] in Hr; rewrite Hr in Hd; auto.
Qed.



(** X7. As long as one stream of the registry has not confirmed its
    cancellation, the disconnect stays in flight: the state is still
    [connected], the client handle has not been touched, and a connect or a
    second disconnect requested meanwhile is refused and changes nothing. *)
Theorem disconnect_waits_for_every_confirmation w key c evs :
  wf w -> fsm_state w = connected -> fsm_pending w = false ->
  subscriptions w !! key = Some c ->
  (c, Status status.CANCELLED) ∉ evs ->
  let x := run_events evs (world_of (disconnect w)) in
  fsm_state x = connected /\ fsm_pending x = true /\
  service x = service w /\ clients x = clients w /\
  (forall env, exists msg, connect env x = Failed (InvalidTransitionError msg) x) /\
  (exists msg, disconnect x = Failed (InvalidTransitionError msg) x).
Proof.
  intros Hw Hs Hp Hk Hnin. cbv zeta.
  destruct (disconnect_from_connected w Hw Hs Hp)
    as (futs & w3 & _ & Hsame & Ha & Hd).
  destruct Hsame as (_ & _ & S3 & S4 & _ & _ & Ssvc & _ & _ & _ & _ & Scl & _).
  simpl in S3, S4, Ssvc, Scl. rewrite Hs in S3.
  assert (Hin : (key, c) ∈ map_to_list (subscriptions w))
    by (apply elem_of_map_to_list, Hk).
  destruct Hd as [[Hres _]|[Hpen ->]].
  { assert (Hnone : (c, Status status.CANCELLED) ∉ []) by (intros H; inversion H).
    pose proof (pending_until_confirmed w3 _ futs [] key c Ha Hin Hnone) as Hpen.
    cbn [run_events foldl] in Hpen. congruence. }
  cbn [world_of]. set (ws := set_awaiting (Some futs) w3).
  assert (Ha' : Forall2 (fun kc fut => awaitsConfirmation ws kc.1 kc.2 fut)
                        (map_to_list (subscriptions w)) futs) by exact Ha.
  assert (Hpen' : all_state ws futs = Pending)
    by (rewrite (all_state_ext w3 ws futs eq_refl); exact Hpen).
  destruct (teardown_progress ws _ futs evs eq_refl S3 S4 Ha' Hpen')
    as [(_ & _ & T3 & T4 & T5 & T6)|(Hx & _)].
  - split; [exact T3|]. split; [exact T4|]. split; [rewrite T5; exact Ssvc|].
    split; [rewrite T6; exact Scl|]. split.
    + intros env. apply connect_rejected. right. exact T4.
    + apply disconnect_rejected. right. exact T4.
  - rewrite (pending_until_confirmed ws _ futs evs key c Ha' Hin Hnin) in Hx.
    discriminate.
Qed.

Lemma disconnect_waits_for_every_confirmation_witness :
  let evs := [(0%nat, Status status.CANCELLED); (1%nat, Status status.OK);
              (1%nat, End)] in
  let x := run_events evs (world_of (disconnect sampleSubscribed)) in
  fsm_state x = connected /\ fsm_pending x = true /\ clients x = [true].
Proof.
  intros evs x.
  destruct (disconnect_waits_for_every_confirmation sampleSubscribed
              "transactions" 1%nat evs) as (H1 & H2 & _ & H4 & _).
  - apply (bool_decide_unpack _); vm_compute; exact I.
  - reflexivity.
  - reflexivity.
  - vm_compute. reflexivity.
  - apply (bool_decide_unpack _); vm_compute; exact I.
  - split; [exact H1|]. split; [exact H2 | exact H4].
Defined.
(** ** More on listeners and cancellations *)

(** X8. Cancelling the same registered subscription twice gives two
    different futures, and a single confirmation from the stream resolves
    both. *)
Theorem cancelling_twice_resolves_both key c w evs :
  wf w -> subscriptions w !! key = Some c ->
  (c, Status status.CANCELLED) ∈ evs ->
  let (f1, w1) := _cancelSubscription key w in
  let (f2, w2) := _cancelSubscription key w1 in
  f1 <> f2 /\
  future_state w2 f1 = Pending /\ future_state w2 f2 = Pending /\
  future_state (run_events evs w2) f1 = Resolved /\
  future_state (run_events evs w2) f2 = Resolved.
Proof.
  intros Hw Hk Hev.
  destruct (cancel_registered_spec key c w Hw Hk) as (Hw1 & _ & Ha1).
  pose proof (cancel_sameInstance key w) as Hs1.
  pose proof (cancel_registered key c w Hk) as E1.
  destruct (_cancelSubscription key w) as [f1 w1]. cbn [fst snd] in *.
  assert (Hk1 : subscriptions w1 !! key = Some c).
  { destruct Hs1 as (_ & _ & _ & _ & -> & _). exact Hk. }
  destruct (cancel_registered_spec key c w1 Hw1 Hk1) as (_ & Hg2 & Ha2).
  pose proof (cancel_registered key c w1 Hk1) as E2.
  destruct (_cancelSubscription key w1) as [f2 w2]. cbn [fst snd] in *.
  pose proof (awaitsConfirmation_grows _ _ _ _ _ Hg2 Ha1) as Ha1'.
  injection E1 as -> Ew1. injection E2 as -> Ew2.
  split.
  { intros [= Hlen]. rewrite Ew1 in Hlen. simpl in Hlen.
    rewrite length_app in Hlen. simpl in Hlen. lia. }
  destruct (awaitsConfirmation_run _ _ _ _ [] Ha1') as (_ & P1 & _).
  destruct (awaitsConfirmation_run _ _ _ _ [] Ha2) as (_ & P2 & _).
  destruct (awaitsConfirmation_run _ _ _ _ evs Ha1') as (R1 & _).
  destruct (awaitsConfirmation_run _ _ _ _ evs Ha2) as (R2 & _).
  assert (Hnone : (c, Status status.CANCELLED) ∉ []) by (intros H; inversion H).
  split; [apply (P1 Hnone)|]. split; [apply (P2 Hnone)|].
  split; [apply R1, Hev | apply R2, Hev].
Qed.

Lemma cancelling_twice_resolves_both_witness :
  let (f1, w1) := _cancelSubscription "invoices" sampleSubscribed in
  let (f2, w2) := _cancelSubscription "invoices" w1 in
  f1 <> f2 /\
  future_state (run_events [(0%nat, Status status.CANCELLED)] w2) f1 = Resolved /\
  future_state (run_events [(0%nat, Status status.CANCELLED)] w2) f2 = Resolved.
Proof.
  pose proof (cancelling_twice_resolves_both "invoices" 0%nat sampleSubscribed
                [(0%nat, Status status.CANCELLED)]) as H.
  destruct (_cancelSubscription "invoices" sampleSubscribed) as [f1 w1].
  destruct (_cancelSubscription "invoices" w1) as [f2 w2].
  destruct H as (H1 & _ & _ & H4 & H5).
  - apply (bool_decide_unpack _); vm_compute; exact I.
  - vm_compute. reflexivity.
  - left.
  - split; [exact H1|]. split; [exact H4 | exact H5].
Defined.

(** X9. A status whose code is not CANCELLED has no effect at all: no
    listener of the stream changes the registry, a promise or the log. *)
Theorem other_status_is_ignored c code w :
  code <> status.CANCELLED -> emit c (Status code) w = w.
Proof.
  intros Hc. unfold emit. generalize (listenersOf c w). intros ls.
  induction ls as [|l ls IH]; [reflexivity|]. simpl.
  assert (Hl : run_listener (Status code) w l = w).
  { destruct l as [key|key p]; [reflexivity|]. simpl.
    rewrite bool_decide_eq_false_2 by exact Hc. reflexivity. }
  rewrite Hl. exact IH.
Qed.

Lemma other_status_is_ignored_witness :
  let w := (_cancelSubscription "invoices" sampleSubscribed).2 in
  emit 0%nat (Status status.OK) w = w.
Proof.
  intros w. apply (other_status_is_ignored 0%nat status.OK w). discriminate.
Defined.

Lemma emission_end_promises ls w :
  promises (foldl (run_listener End) w ls) = promises w.
Proof.
  revert w. induction ls as [|l ls IH]; intros w; simpl; [reflexivity|].
  rewrite IH. destruct l; reflexivity.
Qed.

Lemma emission_end_keeps key ls w :
  onEnd key ∉ ls ->
  subscriptions (foldl (run_listener End) w ls) !! key = subscriptions w !! key.
Proof.
  revert w. induction ls as [|l ls IH]; intros w Hnin; simpl; [reflexivity|].
  apply not_elem_of_cons in Hnin as [Hne Hnin]. rewrite IH by exact Hnin.
  destruct l as [k|k p]; [|reflexivity]. simpl.
  apply lookup_delete_ne. congruence.
Qed.

(** X10. The end of a stream removes from the registry exactly the names
    for which [subscribe] attached an 'end' listener to that stream; every
    other entry stays, and no promise is resolved by it. *)
Theorem end_of_stream_removes_its_names_only c w key :
  subscriptions (emit c End w) !! key
  = (if decide ((c, onEnd key) ∈ listeners w) then None
     else subscriptions w !! key) /\
  promises (emit c End w) = promises w.
Proof.
  unfold emit. split; [|apply emission_end_promises].
  destruct (decide ((c, onEnd key) ∈ listeners w)) as [Hin|Hnin].
  - apply emission_end_deletes, elem_of_listenersOf, Hin.
  - apply emission_end_keeps. rewrite elem_of_listenersOf. exact Hnin.
Qed.

(** ** subscribe after the settling delay *)

Lemma openStreams_sameConnection ks w : sameConnection w (foldl openStream w ks).
Proof.
  revert w. induction ks as [|k ks IH]; intros w; simpl; [apply sameConnection_refl|].
  eapply sameConnection_trans; [|apply IH]. repeat split.
Qed.

Lemma openStreams_subscribeCalls ks w :
  subscribeCalls (foldl openStream w ks) = subscribeCalls w.
Proof.
  revert w. induction ks as [|k ks IH]; intros w; simpl; [reflexivity|].
  rewrite IH. unfold openStream.
  apply (subscribeCalls_effect (OpenStream k (nextCall w))
           (set_subscriptions (<[k:=nextCall w]> (subscriptions w))
              (set_nextCall (S (nextCall w)) w))).
  discriminate.
Qed.

Lemma attachEnds_sameConnection (kcs : list (string * nat)) w :
  sameConnection w (foldl (fun w kc => call_on kc.2 (onEnd kc.1) w) w kcs).
Proof.
  revert w. induction kcs as [|kc kcs IH]; intros w; simpl;
    [apply sameConnection_refl|].
  eapply sameConnection_trans; [|apply IH]. repeat split.
Qed.

Lemma subscribe_sameConnection w : sameConnection w (subscribe w).
Proof.
  unfold subscribe.
  eapply sameConnection_trans; [|apply attachEnds_sameConnection].
  eapply sameConnection_trans; [|apply openStreams_sameConnection].
  repeat split.
Qed.

Lemma subscribe_subscribeCalls w : subscribeCalls (subscribe w) = S (subscribeCalls w).
Proof.
  unfold subscribe.
  match goal with
  | |- context [foldl (fun w kc => call_on kc.2 (onEnd kc.1) w) ?x ?l] =>
    destruct (attachEnds_fields l x) as (_ & _ & _ & _ & _ & Htr)
  end.
  unfold subscribeCalls at 1. rewrite Htr.
  change (subscribeCalls (foldl openStream (effect InvokeSubscribe w)
                            (streams (effect InvokeSubscribe w)))
          = S (subscribeCalls w)).
  rewrite openStreams_subscribeCalls. unfold subscribeCalls, effect. simpl.
  rewrite count_occ_snoc, decide_True by reflexivity. lia.
Qed.

(** X12. A connect that is still [connected] when its settling delay is
    over: the timer fires once, [subscribe] is invoked exactly once, every
    stream the subclass names is registered under a stream opened then, with
    an 'end' listener for its name, and no timer is left. *)
Theorem settled_connection_subscribes env w w1 t :
  wf w -> timers w = [] ->
  connect env w = Done w1 ->
  now w + 2000 <= t ->
  subscribeCalls (advance t w1) = S (subscribeCalls w) /\
  timers (advance t w1) = [] /\
  fsm_state (advance t w1) = connected /\
  forall key, key ∈ streams w ->
    exists c, subscriptions (advance t w1) !! key = Some c /\
              (c, onEnd key) ∈ listeners (advance t w1) /\
              (nextCall w <= c)%nat.
Proof.
  intros Hw Htim Hconn Ht.
  destruct (connect_done _ _ _ Hconn)
    as (_ & _ & Hs1 & _ & Hsub1 & Htim1 & Hnow1 & Hstr1 & Hl1 & Hp1 & Hn1 & _ & _ & Hcalls1).
  rewrite Htim in Htim1. simpl in Htim1.
  set (w1' := set_timers [] (set_now (Z.max (now w1) t) w1)).
  assert (Hadv : advance t w1 = subscribe w1').
  { unfold advance. rewrite Htim1.
    rewrite (filter_cons_True (fun d => d ≤ t)) by lia.
    rewrite (filter_cons_False (fun d => ¬ d ≤ t)) by lia. simpl.
    unfold subscribeAfterDelay.
    rewrite is_connected_spec, bool_decide_eq_true_2 by exact Hs1. reflexivity. }
  rewrite Hadv.
  assert (Hw1' : wf w1').
  { apply (wf_same_shape w); [exact Hl1 | | exact Hn1 | exact Hsub1 | exact Hw].
    simpl. rewrite Hp1. reflexivity. }
  destruct (subscribe_sameConnection w1') as (C1 & _ & _ & _ & _ & C6 & _).
  split; [rewrite subscribe_subscribeCalls; f_equal; exact Hcalls1|].
  split; [exact C6|]. split; [rewrite C1; exact Hs1|].
  intros key Hin.
  assert (Hin' : key ∈ streams w1') by (simpl; rewrite Hstr1; exact Hin).
  destruct (openStreams_lookup (streams w1') (effect InvokeSubscribe w1') key Hin')
    as (c0 & Hc0 & Hle).
  destruct (subscribe_end_listener key w1' Hw1' Hin') as (c & Hc & Hl & _).
  exists c. split; [exact Hc|]. split; [apply elem_of_listenersOf, Hl|].
  assert (c = c0).
  { unfold subscribe in Hc.
    match type of Hc with
    | context [foldl (fun w kc => call_on kc.2 (onEnd kc.1) w) ?x ?l] =>
      destruct (attachEnds_fields l x) as (_ & Hs & _)
    end.
    rewrite Hs in Hc. simpl in Hc0, Hc. congruence. }
  subst c0. simpl in Hle. lia.
Qed.

Lemma settled_connection_subscribes_witness :
  let w1 := world_of (connect envReady sampleService) in
  connect envReady sampleService = Done w1 /\
  subscribeCalls (advance 2000 w1) = 1%nat /\
  timers (advance 2000 w1) = [] /\
  exists c, subscriptions (advance 2000 w1) !! "transactions" = Some c.
Proof.
  intros w1. split; [reflexivity|].
  destruct (settled_connection_subscribes envReady sampleService w1 2000)
    as (H1 & H2 & _ & H4).
  - apply (bool_decide_unpack _); vm_compute; exact I.
  - reflexivity.
  - reflexivity.
  - discriminate.
  - split; [exact H1|]. split; [exact H2|].
    destruct (H4 "transactions") as (c & Hc & _).
    + apply (bool_decide_unpack _); vm_compute; exact I.
    + exists c. exact Hc.
Defined.
(** ** No handle is left open *)












(** ** A confirmation that arrives late *)

(** X14. The cancellation listener deletes by name. If, while the
    cancellation of a registered stream is in flight, [subscribe] runs again
    and the subclass registers a new stream under the same name, the
    confirmation of the old stream removes the entry of the new one. *)
Theorem late_confirmation_removes_new_entry key c w :
  wf w -> subscriptions w !! key = Some c -> key ∈ streams w ->
  let w2 := subscribe (_cancelSubscription key w).2 in
  exists c', subscriptions w2 !! key = Some c' /\ c' <> c /\
             subscriptions (deliver w2 (c, Status status.CANCELLED)) !! key = None.
Proof.
  intros Hw Hk Hin. cbv zeta.
  destruct (cancel_registered_spec key c w Hw Hk) as (Hw1 & _ & Ha).
  pose proof (cancel_sameInstance key w) as Hsame.
  destruct (_cancelSubscription key w) as [f w1]. cbn [fst snd] in *.
  destruct Hsame as (_ & _ & _ & _ & Hsub & _ & _ & Hstr & _ & _ & Hn & _).
  assert (Hin1 : key ∈ streams w1) by (rewrite Hstr; exact Hin).
  destruct (openStreams_lookup (streams w1) (effect InvokeSubscribe w1) key Hin1)
    as (c0 & Hc0 & Hle).
  destruct (subscribe_end_listener key w1 Hw1 Hin1) as (c' & Hc' & _).
  assert (c' = c0).
  { unfold subscribe in Hc'.
    match type of Hc' with
    | context [foldl (fun w kc => call_on kc.2 (onEnd kc.1) w) ?x ?l] =>
      destruct (attachEnds_fields l x) as (_ & Hs & _)
    end.
    rewrite Hs in Hc'. simpl in Hc0, Hc'. congruence. }
  subst c0. exists c'. split; [exact Hc'|]. split.
  { destruct Hw as [_ Hreg]. pose proof (Hreg key c Hk) as Hlt.
    simpl in Hle, Hlt. lia. }
  destruct Ha as (p & _ & _ & Hl & _).
  assert (Hl2 : (c, onStatus key p) ∈ listeners (subscribe w1)).
  { unfold subscribe.
    match goal with
    | |- context [foldl (fun w kc => call_on kc.2 (onEnd kc.1) w) ?x ?l] =>
      destruct (attachEnds_fields l x) as (Hls & _)
    end.
    rewrite Hls. apply elem_of_app. left.
    destruct (openStreams_frame (streams (effect InvokeSubscribe w1))
                (effect InvokeSubscribe w1)) as (-> & _). exact Hl. }
  apply (run_events_confirms [(c, Status status.CANCELLED)] (subscribe w1) c key p Hl2).
  left.
Qed.

Lemma late_confirmation_removes_new_entry_witness :
  let w2 := subscribe (_cancelSubscription "invoices" sampleSubscribed).2 in
  subscriptions w2 !! "invoices" = Some 2%nat /\
  subscriptions (deliver w2 (0%nat, Status status.CANCELLED)) !! "invoices" = None.
Proof.
  intros w2.
  destruct (late_confirmation_removes_new_entry "invoices" 0%nat sampleSubscribed)
    as (c' & Hc' & _ & Hgone).
  - apply (bool_decide_unpack _); vm_compute; exact I.
  - vm_compute. reflexivity.
  - apply (bool_decide_unpack _); vm_compute; exact I.
  - split; [vm_compute; reflexivity | exact Hgone].
Defined.
Lemma reachable_wf_witness :
  reachable sampleSubscribed /\ wf sampleSubscribed.
Proof.
  assert (R1 : reachable sampleSubscribed).
  { unfold sampleSubscribed. eapply reachable_step; [|apply step_advance].
    eapply reachable_step; [|apply step_connect]. apply reachable_new. }
  split; [exact R1 | apply (reachable_wf _ R1)].
Defined.

(** ** A macaroon file that never appears *)

(** X15. A connect that uses macaroons and waits for the file (a "local"
    instance): if the 20000 ms wait for the macaroon file is rejected with
    [e], the connect fails with [e] right there; no macaroon credentials are
    built, no client is created, [this.service] is not written, and the
    state stays [ready]. *)
Theorem macaroon_wait_timeout_aborts env w v e :
  fsm_state w = ready -> fsm_pending w = false ->
  cs_useMacaroon (_getConnectionSettings w) = true ->
  cs_waitForMacaroon (_getConnectionSettings w) = true ->
  latestProtoVersion env = Ok v ->
  loadResult env = None -> sslCredsResult env = None ->
  waitForFileResult env = Some e ->
  exists w',
    connect env w = Failed e w' /\
    fsm_state w' = ready /\ fsm_pending w' = false /\
    clients w' = clients w /\ service w' = service w /\
    trace w' = trace w ++
      [ Info (Connecting (serviceName w));
        GetLatestProtoVersion (protoPath (lndConfig w));
        Info (EstablishingConnection (serviceName w)
                (join (protoPath (lndConfig w)) (v +:+ ".proto")));
        LoadProto (join (protoPath (lndConfig w)) (v +:+ ".proto"));
        CreateSslCreds (cert (lndConfig w));
        WaitForFile (macaroon (lndConfig w)) 20000 ].
Proof.
  intros Hs Hp Hum Hwm Hv Hload Hssl Hwait.
  rewrite (connect_outcome env w Hs Hp), onBeforeConnect_unfold.
  change (_getConnectionSettings (set_fsm_pending true w))
    with (_getConnectionSettings w).
  rewrite Hum, Hwm.
  unfold establishConnection, mbind, M_bind.
  rewrite step_get. cbv beta zeta.
  rewrite (step_latest_ok _ _ _ _ _ Hv). run_steps.
  rewrite (step_await_ok _ _ _ Hload). run_steps.
  rewrite (step_await_ok _ _ _ Hssl). run_steps.
  rewrite (step_await_fails _ _ _ _ Hwait).
  eexists. split; [reflexivity|]. simpl. rewrite Hs, <- !app_assoc.
  repeat split.
Qed.

Lemma macaroon_wait_timeout_aborts_witness :
  let env := {| latestProtoVersion := Ok "0.9.0"; loadResult := None;
                sslCredsResult := None;
                waitForFileResult := Some (MkError "Error" "Unable to find file");
                macaroonCredsResult := None;
                waitForReadyResult := fun _ => None |} in
  exists w', connect env sampleService
             = Failed (MkError "Error" "Unable to find file") w' /\
             clients w' = [] /\ service w' = None.
Proof.
  intros env.
  destruct (macaroon_wait_timeout_aborts env sampleService "0.9.0"
              (MkError "Error" "Unable to find file"))
    as (w' & Hc & _ & _ & Hcl & Hsvc & _); try reflexivity.
  exists w'. split; [exact Hc|]. split; [exact Hcl | exact Hsvc].
Defined.
